(** * Entity behaviour of the Kirby-like platformer, embedded in Rocq

    The development follows the TypeScript sources:
    - [state.ts]    the process-wide scene bookkeeping ([Module State]);
    - [entities.ts] the player, the capture protocol shared by the enemies
                    and the two state-machine driven enemies
                    ([Module Entities]);
    - [main.ts]     the periodic bird spawner of a level ([Module Main]).

    The game engine (Kaboom) is an external collaborator.  The few
    primitives of it that the handlers call are gathered in [Module Engine];
    every one of them is modelled from the specification and says so. *)

From Stdlib Require Import QArith Qround.
From stdpp Require Import gmap strings list fin_maps.

Local Open Scope string_scope.
Local Open Scope list_scope.
Local Open Scope nat_scope.

(** JavaScript's [Array.prototype.includes] on an array of strings. *)
Definition includes (l : list string) (s : string) : bool :=
  existsb (String.eqb s) l.

(* ===================================================================== *)
(** ** state.ts *)
(* ===================================================================== *)

Module State.

Record GameState := mkGameState {
  scenes : list string;
  nextScene : string;
  currentScene : string
}.

Definition globalGameState : GameState :=
  {| scenes := ["level-1"; "level-2"; "end"];
     nextScene := "";
     currentScene := "level-1" |}.

Definition setCurrentScene (sceneName : string) (this : GameState) : GameState :=
  if includes (scenes this) sceneName
  then {| scenes := scenes this;
          nextScene := nextScene this;
          currentScene := sceneName |}
  else this.

Definition setNextScene (sceneName : string) (this : GameState) : GameState :=
  if includes (scenes this) sceneName
  then {| scenes := scenes this;
          nextScene := sceneName;
          currentScene := currentScene this |}
  else this.

(** A call of one of the two setters, and the effect of a sequence of
    such calls on the object. *)
Inductive Setter :=
| SetCurrentScene (sceneName : string)
| SetNextScene (sceneName : string).

Definition call (this : GameState) (c : Setter) : GameState :=
  match c with
  | SetCurrentScene s => setCurrentScene s this
  | SetNextScene s => setNextScene s this
  end.

Definition calls (cs : list Setter) (this : GameState) : GameState :=
  foldl call this cs.

End State.

(* ===================================================================== *)
(** ** The engine primitives the handlers rely on *)
(* ===================================================================== *)

Module Engine.

(** Handles of the game objects the handlers name. *)
Inductive Ref :=
| RPlayer
| REnemy (id : nat)
| RStar (id : nat).

#[global] Instance Ref_eq_dec : EqDecision Ref.
Proof. solve_decision. Defined.

(** [k.LEFT] and [k.RIGHT]. *)
Inductive Dir := LEFT | RIGHT.

(** Calls on the physics body of an object: [obj.move(vx, vy)] and
    [obj.jump(force)]. *)
Inductive BodyCall :=
| BMove (vx vy : Z)
| BJump (force : Z).

#[global] Instance Dir_eq_dec : EqDecision Dir.
Proof. solve_decision. Defined.

#[global] Instance BodyCall_eq_dec : EqDecision BodyCall.
Proof. solve_decision. Defined.

(** The engine calls a handler issues, in program order.  [Flicker] stands
    for the two chained opacity tweens of the damage effect, whose
    interpolation is the engine's. *)
Inductive Call :=
| Destroy (r : Ref)
| Go (scene : string)
| Body (r : Ref) (c : BodyCall)
| DoubleJump
| Flicker.

#[global] Instance Call_eq_dec : EqDecision Call.
Proof. solve_decision. Defined.

(** Modelled from the spec: the scheduler behind [k.wait], missing from
    the sources.  Time is counted in ticks, [tps] ticks to the second; a
    timer holds the tick at which its continuation [cont] runs (§3
    "Timer: target time, callback") and the delayed continuation runs on
    the tick at which its deadline elapses (§5). *)
Record Timer (K : Type) := mkTimer { deadline : nat; cont : K }.
Arguments mkTimer {K} _ _.
Arguments deadline {K} _.
Arguments cont {K} _.

Definition wait {K : Type} (tps now secs : nat) (k : K)
    (pending : list (Timer K)) : list (Timer K) :=
  pending ++ [mkTimer (now + secs * tps) k].

Definition due {K : Type} (now : nat) (t : Timer K) : bool :=
  deadline t <=? now.

(** The [k.state(initial, names)] component of an object. *)
Record StateComp := mkStateComp { stateList : list string; state : string }.

(** A state event the machine raised; the callbacks registered for it, if
    any, run on it. *)
Inductive Fired :=
| OnEnter (name : string)
| OnExit (name : string).

(** Modelled from the spec: the generic state machine behind
    [obj.enterState], missing from the sources (§4.1).  A name that is not
    declared is ignored; on a valid transition the exit callback of the
    current state runs, the current state is set and the enter callback
    of the new state runs.  [comp], [setComp] and [fire] read and write
    the component and the record of fired callbacks inside the owning
    object [E]. *)
Section StateMachine.
Context {E : Type}.
Variable comp : E → StateComp.
Variable setComp : StateComp → E → E.
Variable fire : Fired → E → E.
Variables onStateEnd onStateEnter : string → E → E.

Definition enterState (name : string) (e : E) : E :=
  if includes (stateList (comp e)) name then
    let old := state (comp e) in
    let e1 := onStateEnd old (fire (OnExit old) e) in
    let e2 := setComp (mkStateComp (stateList (comp e1)) name) e1 in
    onStateEnter name (fire (OnEnter name) e2)
  else e.

(** Modelled from the spec: the enter callback of the initial state runs
    once the object is live (§4.4: the initial Idle of both machines
    already waits its delay). *)
Definition start (e : E) : E :=
  onStateEnter (state (comp e)) (fire (OnEnter (state (comp e))) e).
End StateMachine.

End Engine.

(* ===================================================================== *)
(** ** entities.ts *)
(* ===================================================================== *)

Module Entities.
Import Engine.

(** [constants.ts] *)
Definition scale : Z := 4.

(** A JavaScript truthiness test on a property that is [undefined]
    ([None]) until first assigned. *)
Definition truthy (o : option bool) : bool := default false o.

(** *** The state-machine driven part of a flame or a guy

    [comp] is the [k.state] component, [mflipX] the sprite flag, [mspeed]
    the custom [speed] property (absent on a flame), [mtimers] the
    pending [k.wait] continuations (each one an [enterState] of the named
    state), [mbody] the calls made on the physics body. *)
Record Mob := mkMob {
  comp : StateComp;
  mflipX : bool;
  mspeed : option Z;
  mtimers : list (Timer string);
  mclock : nat;
  fired : list Fired;
  mbody : list BodyCall
}.

Definition setComp (c : StateComp) (m : Mob) : Mob :=
  mkMob c (mflipX m) (mspeed m) (mtimers m) (mclock m) (fired m) (mbody m).
Definition setMFlipX (b : bool) (m : Mob) : Mob :=
  mkMob (comp m) b (mspeed m) (mtimers m) (mclock m) (fired m) (mbody m).
Definition setMTimers (ts : list (Timer string)) (m : Mob) : Mob :=
  mkMob (comp m) (mflipX m) (mspeed m) ts (mclock m) (fired m) (mbody m).
Definition setMClock (n : nat) (m : Mob) : Mob :=
  mkMob (comp m) (mflipX m) (mspeed m) (mtimers m) n (fired m) (mbody m).
Definition fire (f : Fired) (m : Mob) : Mob :=
  mkMob (comp m) (mflipX m) (mspeed m) (mtimers m) (mclock m) (fired m ++ [f]) (mbody m).
Definition bodyCall (c : BodyCall) (m : Mob) : Mob :=
  mkMob (comp m) (mflipX m) (mspeed m) (mtimers m) (mclock m) (fired m) (mbody m ++ [c]).

(** No [onStateEnd] handler is registered anywhere in the sources. *)
Definition noHandler (_ : string) (m : Mob) : Mob := m.

Section Machines.
(** Ticks per second of the scheduler. *)
Variable tps : nat.

(** [await k.wait(secs); obj.enterState(next)] *)
Definition mobWait (secs : nat) (next : string) (m : Mob) : Mob :=
  setMTimers (wait tps (mclock m) secs next (mtimers m)) m.

(** **** makeFlameEnemy *)

Definition flameOnStateEnter (name : string) (m : Mob) : Mob :=
  if String.eqb name "idle" then mobWait 1 "jump" m
  else if String.eqb name "jump" then bodyCall (BJump 1000) m
  else m.

Definition flameEnterState : string → Mob → Mob :=
  enterState comp setComp fire noHandler flameOnStateEnter.

(** [isGrounded] is the answer of [flame.isGrounded()] on this tick. *)
Definition flameOnStateUpdate (isGrounded : bool) (name : string) (m : Mob) : Mob :=
  if String.eqb name "jump" then
    if isGrounded then flameEnterState "idle" m else m
  else m.

Definition makeFlameMob : Mob :=
  start comp fire flameOnStateEnter
    {| comp := mkStateComp ["idle"; "jump"] "idle";
       mflipX := false; mspeed := None; mtimers := []; mclock := 0;
       fired := []; mbody := [] |}.

(** **** makeGuyEnemy *)

Definition guyOnStateEnter (name : string) (m : Mob) : Mob :=
  if String.eqb name "idle" then mobWait 1 "left" m
  else if String.eqb name "left" then mobWait 2 "right" (setMFlipX false m)
  else if String.eqb name "right" then mobWait 2 "left" (setMFlipX true m)
  else m.

Definition guyEnterState : string → Mob → Mob :=
  enterState comp setComp fire noHandler guyOnStateEnter.

(** [guy.move(-guy.speed, 0)] and [guy.move(guy.speed, 0)]; a guy always
    carries its [speed] property. *)
Definition guyOnStateUpdate (name : string) (m : Mob) : Mob :=
  match mspeed m with
  | Some v =>
      if String.eqb name "left" then bodyCall (BMove (- v) 0) m
      else if String.eqb name "right" then bodyCall (BMove v 0) m
      else m
  | None => m
  end.

Definition makeGuyMob : Mob :=
  start comp fire guyOnStateEnter
    {| comp := mkStateComp ["idle"; "left"; "right"; "jump"] "idle";
       mflipX := false; mspeed := Some 100%Z; mtimers := []; mclock := 0;
       fired := []; mbody := [] |}.

(** Modelled from the spec: one tick of the loop as seen by one
    state-machine object (§5): the clock advances, the continuations
    whose deadline has elapsed run in the order they were registered,
    then the update callback of the current state runs once. *)
Definition mobTick (enter update : string → Mob → Mob) (m : Mob) : Mob :=
  let now := S (mclock m) in
  let dues := List.filter (due now) (mtimers m) in
  let rest := List.filter (λ t, negb (due now t)) (mtimers m) in
  let m1 := foldl (λ acc t, enter (cont t) acc) (setMTimers rest (setMClock now m)) dues in
  update (state (comp m1)) m1.

Definition flameTick (isGrounded : bool) : Mob → Mob :=
  mobTick flameEnterState (flameOnStateUpdate isGrounded).

Definition guyTick : Mob → Mob :=
  mobTick guyEnterState guyOnStateUpdate.

(** A flame run over the per-tick answers of the grounded check, and a
    guy run for a number of ticks. *)
Definition flameRun (gs : list bool) (m : Mob) : Mob :=
  foldl (λ acc g, flameTick g acc) m gs.

Fixpoint guyRun (n : nat) (m : Mob) : Mob :=
  match n with
  | O => m
  | S n' => guyTick (guyRun n' m)
  end.
End Machines.

(** *** The objects of a scene *)

Record Player := mkPlayer {
  hp : Z;
  speed : Z;
  direction : string;
  isInhaling : bool;
  isFull : bool;
  flipX : bool;
  anim : string;
  pos : Z * Z
}.

Definition setHp (v : Z) (p : Player) : Player :=
  mkPlayer v (speed p) (direction p) (isInhaling p) (isFull p) (flipX p) (anim p) (pos p).
Definition setDirection (d : string) (p : Player) : Player :=
  mkPlayer (hp p) (speed p) d (isInhaling p) (isFull p) (flipX p) (anim p) (pos p).
Definition setIsInhaling (b : bool) (p : Player) : Player :=
  mkPlayer (hp p) (speed p) (direction p) b (isFull p) (flipX p) (anim p) (pos p).
Definition setIsFull (b : bool) (p : Player) : Player :=
  mkPlayer (hp p) (speed p) (direction p) (isInhaling p) b (flipX p) (anim p) (pos p).
Definition setFlipX (b : bool) (p : Player) : Player :=
  mkPlayer (hp p) (speed p) (direction p) (isInhaling p) (isFull p) b (anim p) (pos p).
Definition setAnim (a : string) (p : Player) : Player :=
  mkPlayer (hp p) (speed p) (direction p) (isInhaling p) (isFull p) (flipX p) a (pos p).
Definition setPos (q : Z * Z) (p : Player) : Player :=
  mkPlayer (hp p) (speed p) (direction p) (isInhaling p) (isFull p) (flipX p) (anim p) q.

(** Which factory made an enemy, that is, which handlers it carries. *)
Inductive Kind := Flame | Guy | Bird.

(** An object tagged [enemy].  [isInhalable] is [None] while the property
    is still undefined; [moveComp] is the [k.move] component of a bird;
    [eexists] is cleared when the object is destroyed (the JavaScript
    object itself stays reachable from the closures that hold it). *)
Record Enemy := mkEnemy {
  kind : Kind;
  epos : Z * Z;
  isInhalable : option bool;
  moveComp : option (Dir * Z);
  eexists : bool;
  mob : option Mob
}.

Definition setIsInhalable (v : option bool) (e : Enemy) : Enemy :=
  mkEnemy (kind e) (epos e) v (moveComp e) (eexists e) (mob e).
Definition setEExists (b : bool) (e : Enemy) : Enemy :=
  mkEnemy (kind e) (epos e) (isInhalable e) (moveComp e) b (mob e).
Definition setMob (m : option Mob) (e : Enemy) : Enemy :=
  mkEnemy (kind e) (epos e) (isInhalable e) (moveComp e) (eexists e) m.

(** A [shootingStar] projectile. *)
Record Star := mkStar {
  sflipX : bool;
  spos : Z * Z;
  smove : Dir * Z;
  sexists : bool
}.

Definition setSExists (b : bool) (s : Star) : Star :=
  mkStar (sflipX s) (spos s) (smove s) b.

(** The continuation of the player's [k.wait(1, () => player.play(..))]. *)
Inductive PCont := PlayAnim (a : string).

Record World := mkWorld {
  player : Player;
  playerExists : bool;
  inhaleEffectOpacity : Z;
  enemies : gmap nat Enemy;
  stars : gmap nat Star;
  nextId : nat;
  game : State.GameState;
  timers : list (Timer PCont);
  clock : nat;
  calls : list Call;
  destroyEvents : list Ref
}.

Definition setPlayer (p : Player) (w : World) : World :=
  mkWorld p (playerExists w) (inhaleEffectOpacity w) (enemies w) (stars w)
    (nextId w) (game w) (timers w) (clock w) (calls w) (destroyEvents w).
Definition setPlayerExists (b : bool) (w : World) : World :=
  mkWorld (player w) b (inhaleEffectOpacity w) (enemies w) (stars w)
    (nextId w) (game w) (timers w) (clock w) (calls w) (destroyEvents w).
Definition setOpacity (o : Z) (w : World) : World :=
  mkWorld (player w) (playerExists w) o (enemies w) (stars w)
    (nextId w) (game w) (timers w) (clock w) (calls w) (destroyEvents w).
Definition setEnemies (m : gmap nat Enemy) (w : World) : World :=
  mkWorld (player w) (playerExists w) (inhaleEffectOpacity w) m (stars w)
    (nextId w) (game w) (timers w) (clock w) (calls w) (destroyEvents w).
Definition setStars (m : gmap nat Star) (w : World) : World :=
  mkWorld (player w) (playerExists w) (inhaleEffectOpacity w) (enemies w) m
    (nextId w) (game w) (timers w) (clock w) (calls w) (destroyEvents w).
Definition setNextId (n : nat) (w : World) : World :=
  mkWorld (player w) (playerExists w) (inhaleEffectOpacity w) (enemies w) (stars w)
    n (game w) (timers w) (clock w) (calls w) (destroyEvents w).
Definition setTimers (ts : list (Timer PCont)) (w : World) : World :=
  mkWorld (player w) (playerExists w) (inhaleEffectOpacity w) (enemies w) (stars w)
    (nextId w) (game w) ts (clock w) (calls w) (destroyEvents w).
Definition setClock (n : nat) (w : World) : World :=
  mkWorld (player w) (playerExists w) (inhaleEffectOpacity w) (enemies w) (stars w)
    (nextId w) (game w) (timers w) n (calls w) (destroyEvents w).
Definition logCall (c : Call) (w : World) : World :=
  mkWorld (player w) (playerExists w) (inhaleEffectOpacity w) (enemies w) (stars w)
    (nextId w) (game w) (timers w) (clock w) (calls w ++ [c]) (destroyEvents w).
Definition logDestroyEvent (r : Ref) (w : World) : World :=
  mkWorld (player w) (playerExists w) (inhaleEffectOpacity w) (enemies w) (stars w)
    (nextId w) (game w) (timers w) (clock w) (calls w) (destroyEvents w ++ [r]).

(** *** Engine calls on the world *)

Definition alive (r : Ref) (w : World) : bool :=
  match r with
  | RPlayer => playerExists w
  | REnemy id => from_option eexists false (enemies w !! id)
  | RStar id => from_option sexists false (stars w !! id)
  end.

Definition detach (r : Ref) (w : World) : World :=
  match r with
  | RPlayer => setPlayerExists false w
  | REnemy id => setEnemies (alter (setEExists false) id (enemies w)) w
  | RStar id => setStars (alter (setSExists false) id (stars w)) w
  end.

(** Modelled from the spec: [k.destroy], missing from the sources.  The
    call is recorded; the object is taken out of the scene and its destroy
    event raised only if it is still there (§7 DoubleDestroy: "prevented
    structurally by an idempotent destroy guard"). *)
Definition destroy (r : Ref) (w : World) : World :=
  let w1 := logCall (Destroy r) w in
  if alive r w then logDestroyEvent r (detach r w1) else w1.

(** Modelled from the spec: [k.go(scene)], the request to restart into a
    scene (§4.3), is recorded; the scene function that rebuilds the world is
    [Main.level]. *)
Definition go (scene : string) (w : World) : World := logCall (Go scene) w.

(** Modelled from the spec: [player.hurt()] of the health component takes
    one point (§4.3 "decrements health by one"). *)
Definition hurt (w : World) : World :=
  setPlayer (setHp (hp (player w) - 1) (player w)) w.

Definition play (a : string) (w : World) : World :=
  setPlayer (setAnim a (player w)) w.

Definition move (r : Ref) (vx vy : Z) (w : World) : World :=
  logCall (Body r (BMove vx vy)) w.

(** *** makePlayer *)

Definition makePlayer (posX posY : Z) : Player :=
  {| hp := 3;
     speed := 300;
     direction := "right";
     isInhaling := false;
     isFull := false;
     flipX := false;
     anim := "kirbIdle";
     pos := (posX * scale, posY * scale)%Z |}.

(** [player.onCollide("enemy", async (enemy) => ...)], called with the
    enemy [id]. *)
Definition onCollideEnemy (id : nat) (w : World) : World :=
  match enemies w !! id with
  | None => w
  | Some enemy =>
      if isInhaling (player w) && truthy (isInhalable enemy) then
        let w1 := setPlayer (setIsInhaling false (player w)) w in
        let w2 := destroy (REnemy id) w1 in
        setPlayer (setIsFull true (player w2)) w2
      else if (hp (player w) =? 0)%Z then
        go (State.currentScene (game w)) (destroy RPlayer w)
      else
        logCall Flicker (hurt w)
  end.

(** [player.onCollide("exit", ...)] *)
Definition onCollideExit (w : World) : World :=
  go (State.nextScene (game w)) w.

(** [player.onUpdate(...)]: the fall check. *)
Definition playerOnUpdate (w : World) : World :=
  if (2000 <? snd (pos (player w)))%Z
  then go (State.currentScene (game w)) w
  else w.

(** *** setControls *)

Definition onKeyDown (key : string) (w : World) : World :=
  if String.eqb key "left" then
    let w1 := setPlayer (setFlipX true (setDirection "left" (player w))) w in
    move RPlayer (- speed (player w1)) 0 w1
  else if String.eqb key "right" then
    let w1 := setPlayer (setFlipX false (setDirection "right" (player w))) w in
    move RPlayer (speed (player w1)) 0 w1
  else if String.eqb key "z" then
    if isFull (player w) then
      setOpacity 0 (play "kirbFull" w)
    else
      let w1 := setPlayer (setIsInhaling true (player w)) w in
      setOpacity 1 (play "kirbInhaling" w1)
  else w.

Definition onKeyPress (key : string) (w : World) : World :=
  if String.eqb key "x" then logCall DoubleJump w else w.

(** The projectile made on release: its sprite flip, position and
    [k.move] component all follow [player.direction]. *)
Definition shootingStar (p : Player) : Star :=
  {| sflipX := String.eqb (direction p) "right";
     spos := (if String.eqb (direction p) "left"
              then fst (pos p) - 80 else fst (pos p) + 80,
              snd (pos p) + 5)%Z;
     smove := if String.eqb (direction p) "left"
              then (LEFT, 800%Z) else (RIGHT, 800%Z);
     sexists := true |}.

Definition addStar (s : Star) (w : World) : World :=
  setNextId (S (nextId w)) (setStars (<[nextId w := s]> (stars w)) w).

Section Controls.
Variable tps : nat.

Definition onKeyRelease (key : string) (w : World) : World :=
  if String.eqb key "z" then
    if isFull (player w) then
      let w1 := play "kirbInhaling" w in
      let w2 := addStar (shootingStar (player w1)) w1 in
      let w3 := setPlayer (setIsFull false (player w2)) w2 in
      setTimers (wait tps (clock w3) 1 (PlayAnim "kirbIdle") (timers w3)) w3
    else
      let w1 := setOpacity 0 w in
      let w2 := setPlayer (setIsInhaling false (player w1)) w1 in
      play "kirbIdle" w2
  else w.
End Controls.

(** [shootingStar.onCollide("platform", () => k.destroy(shootingStar))] *)
Definition starOnCollidePlatform (sid : nat) (w : World) : World :=
  destroy (RStar sid) w.

(** *** makeInhalable *)

Definition alterEnemy (f : Enemy → Enemy) (id : nat) (w : World) : World :=
  setEnemies (alter f id (enemies w)) w.

(** [enemy.onCollide("inhaleZone", ...)] *)
Definition onCollideInhaleZone (id : nat) (w : World) : World :=
  alterEnemy (setIsInhalable (Some true)) id w.

(** [enemy.onCollideEnd("inhaleZone", ...)] *)
Definition onCollideEndInhaleZone (id : nat) (w : World) : World :=
  alterEnemy (setIsInhalable (Some false)) id w.

(** [enemy.onCollide("shootingStar", (shootingStar) => ...)] *)
Definition onCollideShootingStar (id sid : nat) (w : World) : World :=
  destroy (RStar sid) (destroy (REnemy id) w).

(** [enemy.onUpdate(...)]: the pull toward the player. *)
Definition enemyOnUpdate (id : nat) (w : World) : World :=
  match enemies w !! id with
  | None => w
  | Some enemy =>
      if isInhaling (player w) && truthy (isInhalable enemy) then
        if String.eqb (direction (player w)) "right"
        then move (REnemy id) (-800) 0 w
        else move (REnemy id) 800 0 w
      else w
  end.

(** *** The enemy factories *)

Definition addEnemy (e : Enemy) (w : World) : World :=
  setNextId (S (nextId w)) (setEnemies (<[nextId w := e]> (enemies w)) w).

Definition makeFlameEnemy (tps : nat) (posX posY : Z) (w : World) : World :=
  addEnemy {| kind := Flame; epos := (posX * scale, posY * scale)%Z;
              isInhalable := None; moveComp := None; eexists := true;
              mob := Some (makeFlameMob tps) |} w.

Definition makeGuyEnemy (tps : nat) (posX posY : Z) (w : World) : World :=
  addEnemy {| kind := Guy; epos := (posX * scale, posY * scale)%Z;
              isInhalable := Some false; moveComp := None; eexists := true;
              mob := Some (makeGuyMob tps) |} w.

Definition makeBirdEnemy (posX posY speed : Z) (w : World) : World :=
  addEnemy {| kind := Bird; epos := (posX * scale, posY * scale)%Z;
              isInhalable := None; moveComp := Some (LEFT, speed);
              eexists := true; mob := None |} w.

(** Modelled from the spec: the [k.offscreen({ destroy: true, distance:
    400 })] component that [makeBirdEnemy] gives its object (§4.4: a flyer
    "self-destructs once it exits a bounding margin").  The engine itself
    takes a bird that is still in the scene out of it and raises its destroy
    event; no handler of the sources calls [k.destroy] for it, and flames
    and guys carry no such component. *)
Definition birdOffscreen (id : nat) (w : World) : World :=
  match enemies w !! id with
  | Some enemy =>
      match kind enemy with
      | Bird =>
          if eexists enemy
          then logDestroyEvent (REnemy id) (detach (REnemy id) w)
          else w
      | _ => w
      end
  | None => w
  end.

(** *** What the engine delivers to the handlers *)

Inductive Event :=
| KeyDown (key : string)
| KeyPress (key : string)
| KeyRelease (key : string)
| PlayerCollideEnemy (id : nat)
| PlayerCollideExit
| PlayerUpdate
| PlayerMoved (q : Z * Z)
| EnemyCollideZone (id : nat)
| EnemyCollideEndZone (id : nat)
| EnemyCollideStar (id sid : nat)
| EnemyUpdate (id : nat)
| EnemyOffscreen (id : nat)
| EnemyTick (id : nat) (isGrounded : bool)
| StarCollidePlatform (sid : nat)
| Tick.

Section Step.
Variable tps : nat.

(** One tick of the state machine of enemy [id], if it has one. *)
Definition enemyTick (isGrounded : bool) (e : Enemy) : Enemy :=
  match kind e with
  | Flame => setMob (flameTick tps isGrounded <$> mob e) e
  | Guy => setMob (guyTick tps <$> mob e) e
  | Bird => e
  end.

(** Modelled from the spec: one tick of the scheduler for the timers of
    the scene (§5), here the player's return to the idle animation. *)
Definition runPCont (k : PCont) (w : World) : World :=
  match k with PlayAnim a => play a w end.

Definition tick (w : World) : World :=
  let now := S (clock w) in
  let dues := List.filter (due now) (timers w) in
  let rest := List.filter (λ t, negb (due now t)) (timers w) in
  foldl (λ acc t, runPCont (cont t) acc) (setTimers rest (setClock now w)) dues.

Definition step (w : World) (e : Event) : World :=
  match e with
  | KeyDown key => onKeyDown key w
  | KeyPress key => onKeyPress key w
  | KeyRelease key => onKeyRelease tps key w
  | PlayerCollideEnemy id => onCollideEnemy id w
  | PlayerCollideExit => onCollideExit w
  | PlayerUpdate => playerOnUpdate w
  | PlayerMoved q => setPlayer (setPos q (player w)) w
  | EnemyCollideZone id => onCollideInhaleZone id w
  | EnemyCollideEndZone id => onCollideEndInhaleZone id w
  | EnemyCollideStar id sid => onCollideShootingStar id sid w
  | EnemyUpdate id => enemyOnUpdate id w
  | EnemyOffscreen id => birdOffscreen id w
  | EnemyTick id g => alterEnemy (enemyTick g) id w
  | StarCollidePlatform sid => starOnCollidePlatform sid w
  | Tick => tick w
  end.

Definition run (es : list Event) (w : World) : World := foldl step w es.
End Step.

(** *** The inhale zone and the inhale effect

    [inhaleZone.onUpdate(...)] of [makePlayer] places the zone (relative to
    the player) and the effect (in the scene) on the side the player
    faces. *)
Record InhaleView := mkInhaleView {
  zonePos : Z * Z;
  effectPos : Z * Z;
  effectFlipX : bool
}.

Definition inhaleZoneOnUpdate (p : Player) : InhaleView :=
  if String.eqb (direction p) "left" then
    {| zonePos := (-14, 8)%Z;
       effectPos := (fst (pos p) - 60, snd (pos p) + 0)%Z;
       effectFlipX := true |}
  else
    {| zonePos := (14, 8)%Z;
       effectPos := (fst (pos p) + 60, snd (pos p) + 0)%Z;
       effectFlipX := false |}.

End Entities.

(* ===================================================================== *)
(** ** utils.ts *)
(* ===================================================================== *)

Module Utils.

(** An object of an object layer of the Tiled map, and a layer.  A layer
    that is neither the collider nor the spawn point layer is never asked
    for its objects. *)
Record TiledObject := mkObject {
  oname : string;
  ox : Z;
  oy : Z;
  owidth : Z;
  oheight : Z
}.

Record Layer := mkLayer { lname : string; objects : list TiledObject }.

(** A child added to the map object: its area (width and height of a
    rectangle at the origin), the tags its area ignores, whether it has a
    (static) body, its position and its tag. *)
Record MapChild := mkChild {
  area : Z * Z;
  collisionIgnore : list string;
  body : bool;
  cpos : Z * Z;
  tag : string
}.

Definition colliderChild (collider : TiledObject) : MapChild :=
  {| area := (owidth collider, oheight collider);
     collisionIgnore := ["platform"; "exit"];
     body := negb (String.eqb (oname collider) "exit");
     cpos := (ox collider, oy collider);
     tag := if negb (String.eqb (oname collider) "exit") then "platform" else "exit" |}.

(** The properties every plain JavaScript object inherits.  [spawnPoints]
    starts as the literal [{}], so [spawnPoints[name]] for one of these
    names is an inherited, truthy value without a [push] method. *)
Definition objectPrototype : list string :=
  ["constructor"; "__defineGetter__"; "__defineSetter__"; "hasOwnProperty";
   "__lookupGetter__"; "__lookupSetter__"; "isPrototypeOf";
   "propertyIsEnumerable"; "toString"; "valueOf"; "__proto__";
   "toLocaleString"].

(** One round of the loop over the objects of the spawn point layer; [None]
    is the [TypeError] of calling [push] on an inherited property. *)
Definition addSpawnPoint (spawnPoints : gmap string (list (Z * Z)))
    (spawnPoint : TiledObject) : option (gmap string (list (Z * Z))) :=
  if includes objectPrototype (oname spawnPoint) then None
  else
    match spawnPoints !! oname spawnPoint with
    | Some l =>
        Some (<[oname spawnPoint := l ++ [(ox spawnPoint, oy spawnPoint)]]> spawnPoints)
    | None =>
        Some (<[oname spawnPoint := [(ox spawnPoint, oy spawnPoint)]]> spawnPoints)
    end.

Fixpoint addSpawnPoints (spawnPoints : gmap string (list (Z * Z)))
    (objs : list TiledObject) : option (gmap string (list (Z * Z))) :=
  match objs with
  | [] => Some spawnPoints
  | o :: objs' =>
      match addSpawnPoint spawnPoints o with
      | Some sp => addSpawnPoints sp objs'
      | None => None
      end
  end.

(** What [makeMap] returns: the children of the map object, in the order
    they were added, and the spawn points by name. *)
Record Map := mkMap {
  children : list MapChild;
  spawnPoints : gmap string (list (Z * Z))
}.

(** The body of the loop over the layers. *)
Definition processLayer (m : Map) (layer : Layer) : option Map :=
  if String.eqb (lname layer) "colliders" then
    Some (mkMap (children m ++ map colliderChild (objects layer)) (spawnPoints m))
  else if String.eqb (lname layer) "spawnpoints" then
    match addSpawnPoints (spawnPoints m) (objects layer) with
    | Some sp => Some (mkMap (children m) sp)
    | None => None
    end
  else Some m.

Fixpoint processLayers (m : Map) (layers : list Layer) : option Map :=
  match layers with
  | [] => Some m
  | layer :: layers' =>
      match processLayer m layer with
      | Some m' => processLayers m' layers'
      | None => None
      end
  end.

(** [makeMap], for the layers of the map data it fetched. *)
Definition makeMap (layers : list Layer) : option Map :=
  processLayers (mkMap [] ∅) layers.

End Utils.

(* ===================================================================== *)
(** ** main.ts *)
(* ===================================================================== *)

Module Main.
Import Engine Entities.

(** The spawn points of a level, by category, as [makeMap] returns them. *)
Record SpawnPoints := mkSpawnPoints {
  spPlayer : list (Z * Z);
  spFlame : list (Z * Z);
  spGuy : list (Z * Z);
  spBird : list (Z * Z)
}.

Definition possibleSpeeds : list Z := [100; 200; 300]%Z.

(** [possibleSpeeds[Math.floor(Math.random() * possibleSpeeds.length)]]
    for the draw [r] that [Math.random()] returned; [None] is
    [undefined].  The product is taken exactly, where JavaScript rounds it
    to a double, so which of the speeds a draw picks can differ by one
    place next to a third of the range.  The draws named below (0 and 1/2)
    have exact products; otherwise only that the speed picked is one of
    the list is used. *)
Definition pickSpeed (r : Q) : option Z :=
  let i := Qfloor (r * inject_Z (Z.of_nat (length possibleSpeeds))) in
  if (i <? 0)%Z then None else possibleSpeeds !! Z.to_nat i.

(** The body of a level scene up to the bird loops: the background and
    the layout aside, the player is made at the given spawn point, the
    inhale effect starts invisible, then the flames and the guys are
    spawned at theirs. *)
Definition scene (tps : nat) (g : State.GameState) (px py : Z)
    (flames guys : list (Z * Z)) : World :=
  let w0 := {| player := makePlayer px py; playerExists := true;
               inhaleEffectOpacity := 0; enemies := ∅; stars := ∅;
               nextId := 0; game := g; timers := []; clock := 0;
               calls := []; destroyEvents := [] |} in
  let w1 := foldl (λ w '(fx, fy), makeFlameEnemy tps fx fy w) w0 flames in
  foldl (λ w '(gx, gy), makeGuyEnemy tps gx gy w) w1 guys.

(** A level: the scene names are set first; the scene function throws
    without a player spawn point ([None]). *)
Definition level (tps : nat) (current next : string) (sp : SpawnPoints)
    (g : State.GameState) : option World :=
  match spPlayer sp with
  | [] => None
  | (x, y) :: _ =>
      let g' := State.setNextScene next (State.setCurrentScene current g) in
      Some (scene tps g' x y (spFlame sp) (spGuy sp))
  end.

(** What drives a scene: an engine event, or one firing of the
    [k.loop(10, ...)] of the bird spawn point [(x, y)]. *)
Inductive Input :=
| Ev (e : Event)
| BirdLoop (x y : Z).

(** One firing of a bird loop draws from [Math.random()], a number in
    [0, 1) that is no part of the world or of the input. *)
Inductive stepR (tps : nat) : World → Input → World → Prop :=
| stepR_ev w e :
    stepR tps w (Ev e) (step tps w e)
| stepR_bird w x y r v :
    (0 <= r)%Q → (r < 1)%Q → pickSpeed r = Some v →
    stepR tps w (BirdLoop x y) (makeBirdEnemy x y v w).

Inductive runR (tps : nat) : World → list Input → World → Prop :=
| runR_nil w : runR tps w [] w
| runR_cons w i w1 ins w2 :
    stepR tps w i w1 → runR tps w1 ins w2 → runR tps w (i :: ins) w2.

(** The same run with the draws made explicit, one per bird firing. *)
Fixpoint runD (tps : nat) (w : World) (ins : list Input) (draws : list Q)
    : option World :=
  match ins with
  | [] => Some w
  | Ev e :: ins' => runD tps (step tps w e) ins' draws
  | BirdLoop x y :: ins' =>
      match draws with
      | [] => None
      | r :: draws' =>
          match pickSpeed r with
          | Some v => runD tps (makeBirdEnemy x y v w) ins' draws'
          | None => None
          end
      end
  end.

(** The scene function reads [spawnPoints.player[0]] and iterates over
    [spawnPoints.flame], [spawnPoints.guy] and [spawnPoints.bird]; a group
    the map does not have is [undefined] there, and reading an element of
    it or iterating over it throws ([None]). *)
Definition spawnsOfMap (m : gmap string (list (Z * Z))) : option SpawnPoints :=
  match m !! "player", m !! "flame", m !! "guy", m !! "bird" with
  | Some p, Some f, Some g, Some b => Some (mkSpawnPoints p f g b)
  | _, _, _, _ => None
  end.

(** A level scene run on the spawn points that [makeMap] returned. *)
Definition levelOfMap (tps : nat) (current next : string)
    (m : gmap string (list (Z * Z))) (g : State.GameState) : option World :=
  match spawnsOfMap m with
  | Some sp => level tps current next sp g
  | None => None
  end.

End Main.


(* ===================================================================== *)
(** ** Theorems *)
(* ===================================================================== *)

Lemma includes_elem_of (l : list string) (s : string) :
  includes l s = true ↔ s ∈ l.
Proof.
  unfold includes. rewrite existsb_exists. split.
  - intros (x & Hin & Heq). apply String.eqb_eq in Heq. subst x.
    by apply list_elem_of_In.
  - intros Hin. exists s. split; [by apply list_elem_of_In | apply String.eqb_refl].
Qed.

Lemma includes_false (l : list string) (s : string) :
  s ∉ l → includes l s = false.
Proof.
  intros Hn. destruct (includes l s) eqn:E; [|done].
  by apply includes_elem_of in E.
Qed.

Section SceneInvariant.
Import State.

(** What every sequence of setter calls preserves. *)
Definition scene_inv (st : GameState) : Prop :=
  scenes st = scenes globalGameState
  ∧ currentScene st ∈ scenes globalGameState
  ∧ (nextScene st = "" ∨ nextScene st ∈ scenes globalGameState).

Lemma scene_inv_init : scene_inv globalGameState.
Proof. repeat split; [set_solver | by left]. Qed.

Lemma scene_inv_call st c : scene_inv st → scene_inv (call st c).
Proof.
  intros (Hs & Hc & Hn).
  destruct c as [s|s]; simpl; unfold setCurrentScene, setNextScene;
    destruct (includes (scenes st) s) eqn:E; try done.
  - apply includes_elem_of in E. rewrite Hs in E. by repeat split.
  - apply includes_elem_of in E. rewrite Hs in E. repeat split; auto.
Qed.

Lemma scene_inv_calls cs st : scene_inv st → scene_inv (calls cs st).
Proof.
  revert st. induction cs as [|c cs IH]; intros st H; [done|].
  apply IH. by apply scene_inv_call.
Qed.
End SceneInvariant.

(** C10: a scene name outside the scene list is rejected by both setters
    (the object is left as it was), and after any sequence of setter calls
    on the initial object [currentScene] is a listed scene and [nextScene]
    is the initial empty string or a listed scene. *)
Theorem setters_guarded_by_scene_list :
  (∀ (s : string) (st : State.GameState),
      s ∉ State.scenes st →
      State.setCurrentScene s st = st ∧ State.setNextScene s st = st)
  ∧ (∀ cs : list State.Setter,
      let st := State.calls cs State.globalGameState in
      State.currentScene st ∈ ["level-1"; "level-2"; "end"]
      ∧ (State.nextScene st = "" ∨ State.nextScene st ∈ ["level-1"; "level-2"; "end"])).
Proof.
  split.
  - intros s st Hn. unfold State.setCurrentScene, State.setNextScene.
    by rewrite (includes_false _ _ Hn).
  - intros cs st.
    destruct (scene_inv_calls cs _ scene_inv_init) as (_ & Hc & Hn).
    by split.
Qed.

Lemma setters_guarded_by_scene_list_witness :
  State.setCurrentScene "level-3" State.globalGameState = State.globalGameState
  ∧ State.setNextScene "level-3" State.globalGameState = State.globalGameState.
Proof.
  apply (proj1 setters_guarded_by_scene_list "level-3" State.globalGameState).
  vm_compute. intros H. repeat (apply elem_of_cons in H as [H|H]; [discriminate H|]).
  by apply elem_of_nil in H.
Defined.

(* --------------------------------------------------------------------- *)
(** *** The state machines of the flame and the guy *)
(* --------------------------------------------------------------------- *)

Section MobFacts.
Import Engine Entities.
Variable tps : nat.

(** The generic machine ignores a name that is not declared. *)
Lemma enterState_undeclared {E : Type} (cmp : E → StateComp) setC fr
    (onEnd onEnter : string → E → E) (name : string) (e : E) :
  name ∉ stateList (cmp e) →
  enterState cmp setC fr onEnd onEnter name e = e.
Proof. intros Hn. unfold enterState. by rewrite (includes_false _ _ Hn). Qed.

Lemma flameOnStateEnter_stateList name m :
  stateList (comp (flameOnStateEnter tps name m)) = stateList (comp m).
Proof.
  unfold flameOnStateEnter.
  destruct (String.eqb name "idle"); [done|].
  by destruct (String.eqb name "jump").
Qed.

Lemma guyOnStateEnter_stateList name m :
  stateList (comp (guyOnStateEnter tps name m)) = stateList (comp m).
Proof.
  unfold guyOnStateEnter.
  destruct (String.eqb name "idle"); [done|].
  destruct (String.eqb name "left"); [done|].
  by destruct (String.eqb name "right").
Qed.

Lemma flameEnterState_stateList name m :
  stateList (comp (flameEnterState tps name m)) = stateList (comp m).
Proof.
  unfold flameEnterState, enterState.
  destruct (includes _ _); [|done].
  by rewrite flameOnStateEnter_stateList.
Qed.

Lemma guyEnterState_stateList name m :
  stateList (comp (guyEnterState tps name m)) = stateList (comp m).
Proof.
  unfold guyEnterState, enterState.
  destruct (includes _ _); [|done].
  by rewrite guyOnStateEnter_stateList.
Qed.

Lemma foldl_enter_stateList (enter : string → Mob → Mob) ts m :
  (∀ name m', stateList (comp (enter name m')) = stateList (comp m')) →
  stateList (comp (foldl (λ acc t, enter (cont t) acc) m ts)) = stateList (comp m).
Proof.
  intros He. revert m. induction ts as [|t ts IH]; intros m; [done|].
  simpl. by rewrite IH, He.
Qed.

Lemma flameTick_stateList g m :
  stateList (comp (flameTick tps g m)) = stateList (comp m).
Proof.
  unfold flameTick, mobTick, flameOnStateUpdate.
  set (m1 := foldl _ _ _).
  assert (stateList (comp m1) = stateList (comp m)) as H1.
  { unfold m1. by rewrite (foldl_enter_stateList _ _ _ flameEnterState_stateList). }
  destruct (String.eqb _ "jump"); [|done].
  destruct g; [|done]. by rewrite flameEnterState_stateList.
Qed.

Lemma guyTick_stateList m :
  stateList (comp (guyTick tps m)) = stateList (comp m).
Proof.
  unfold guyTick, mobTick, guyOnStateUpdate.
  set (m1 := foldl _ _ _).
  assert (stateList (comp m1) = stateList (comp m)) as H1.
  { unfold m1. by rewrite (foldl_enter_stateList _ _ _ guyEnterState_stateList). }
  destruct (mspeed m1); [|done].
  destruct (String.eqb _ "left"); [done|].
  by destruct (String.eqb _ "right").
Qed.

Lemma flameRun_stateList gs :
  stateList (comp (flameRun tps gs (makeFlameMob tps))) = ["idle"; "jump"].
Proof.
  unfold flameRun. induction gs as [|g gs IH] using rev_ind; [done|].
  by rewrite foldl_app; simpl; rewrite flameTick_stateList.
Qed.

Lemma guyRun_stateList n :
  stateList (comp (guyRun tps n (makeGuyMob tps))) = ["idle"; "left"; "right"; "jump"].
Proof.
  induction n as [|n IH]; [done|]. simpl. by rewrite guyTick_stateList.
Qed.
End MobFacts.

(** C5: on every flame (declared states idle, jump) and every guy (declared
    states idle, left, right, jump) that the factories make and the tick
    loop drives, [enterState] with a name outside the declared set leaves
    the object as it was: the current state is unchanged and no enter or
    exit callback is fired. *)
Theorem enterState_undeclared_is_ignored (tps : nat) (name : string) :
  (name ∉ ["idle"; "jump"] →
   ∀ gs : list bool,
     let m := Entities.flameRun tps gs (Entities.makeFlameMob tps) in
     let m' := Entities.flameEnterState tps name m in
     Engine.state (Entities.comp m') = Engine.state (Entities.comp m)
     ∧ Entities.fired m' = Entities.fired m
     ∧ m' = m)
  ∧ (name ∉ ["idle"; "left"; "right"; "jump"] →
     ∀ n : nat,
       let m := Entities.guyRun tps n (Entities.makeGuyMob tps) in
       let m' := Entities.guyEnterState tps name m in
       Engine.state (Entities.comp m') = Engine.state (Entities.comp m)
       ∧ Entities.fired m' = Entities.fired m
       ∧ m' = m).
Proof.
  split.
  - intros Hn gs m m'.
    assert (m' = m) as ->; [|done].
    apply enterState_undeclared. unfold m. by rewrite flameRun_stateList.
  - intros Hn n m m'.
    assert (m' = m) as ->; [|done].
    apply enterState_undeclared. unfold m. by rewrite guyRun_stateList.
Qed.

Lemma not_elem_of_by_eqb (s : string) (l : list string) :
  includes l s = false → s ∉ l.
Proof. intros H Hin. apply includes_elem_of in Hin. congruence. Qed.

Lemma enterState_undeclared_is_ignored_witness :
  Entities.flameEnterState 60 "left"
    (Entities.flameRun 60 [false; true] (Entities.makeFlameMob 60))
  = Entities.flameRun 60 [false; true] (Entities.makeFlameMob 60)
  ∧ Entities.guyEnterState 60 "fly" (Entities.guyRun 60 3 (Entities.makeGuyMob 60))
    = Entities.guyRun 60 3 (Entities.makeGuyMob 60).
Proof.
  split.
  - apply (proj1 (enterState_undeclared_is_ignored 60 "left")).
    apply not_elem_of_by_eqb. reflexivity.
  - apply (proj2 (enterState_undeclared_is_ignored 60 "fly")).
    apply not_elem_of_by_eqb. reflexivity.
Defined.

Section TickFacts.
Import Engine Entities.

(** A tick that fires no timer only advances the clock and runs the
    update callback of the current state. *)
Lemma mobTick_pending enter update m t :
  mtimers m = [t] → S (mclock m) < deadline t →
  mobTick enter update m = update (state (comp m)) (setMClock (S (mclock m)) m).
Proof.
  intros Ht Hlt. unfold mobTick. rewrite Ht. simpl. unfold due.
  destruct (Nat.leb_spec (deadline t) (S (mclock m))) as [Hle|_]; [lia|].
  simpl. destruct m; simpl in *. by subst.
Qed.

(** A tick on which the only pending timer is due runs its continuation
    before the update callback. *)
Lemma mobTick_due enter update m t :
  mtimers m = [t] → deadline t = S (mclock m) →
  mobTick enter update m =
    let m1 := enter (cont t) (setMTimers [] (setMClock (S (mclock m)) m)) in
    update (state (comp m1)) m1.
Proof.
  intros Ht Hd. unfold mobTick. rewrite Ht. simpl. unfold due.
  rewrite Hd, Nat.leb_refl. reflexivity.
Qed.
End TickFacts.

(* --------------------------------------------------------------------- *)
(** *** The patrol of the guy *)
(* --------------------------------------------------------------------- *)

Section GuyPatrol.
Import Engine Entities.
Variable tps : nat.
Hypothesis tps_pos : 0 < tps.

Definition guyStates : list string := ["idle"; "left"; "right"; "jump"].

(** The state and the horizontal velocity of the [k]-th walking phase. *)
Definition side (k : nat) : string := if Nat.even k then "left" else "right".
Definition vel (k : nat) : Z := if Nat.even k then (-100)%Z else 100%Z.

(** The guy [n] ticks into its initial pause. *)
Definition guyIdleInv (n : nat) (m : Mob) : Prop :=
  mclock m = n ∧ n < tps
  ∧ comp m = mkStateComp guyStates "idle"
  ∧ mspeed m = Some 100%Z
  ∧ mtimers m = [mkTimer tps "left"]
  ∧ mbody m = [].

(** The guy [r] ticks into its [k]-th walking phase. *)
Definition guyWalkInv (k r : nat) (m : Mob) : Prop :=
  mclock m = tps + 2 * tps * k + r ∧ r < 2 * tps
  ∧ comp m = mkStateComp guyStates (side k)
  ∧ mspeed m = Some 100%Z
  ∧ mflipX m = Nat.odd k
  ∧ mtimers m = [mkTimer (tps + 2 * tps * S k) (side (S k))]
  ∧ length (mbody m) = 2 * tps * k + r + 1
  ∧ last (mbody m) = Some (BMove (vel k) 0).

Lemma guy_spawn_inv : guyIdleInv 0 (makeGuyMob tps).
Proof.
  unfold guyIdleInv, makeGuyMob, start. simpl.
  unfold mobWait, wait. simpl. repeat split; try done.
  do 2 f_equal. lia.
Qed.

Lemma guy_idle_step n m :
  guyIdleInv n m → S n < tps → guyIdleInv (S n) (guyTick tps m).
Proof.
  intros (Hc & Hn & Hs & Hv & Ht & Hb) Hlt. unfold guyTick.
  rewrite (mobTick_pending _ _ _ _ Ht) by (simpl; lia).
  rewrite Hs. unfold guyOnStateUpdate. simpl. rewrite Hv. simpl.
  unfold guyIdleInv. simpl. by rewrite Hc.
Qed.

Lemma guy_first_step n m :
  guyIdleInv n m → S n = tps → guyWalkInv 0 0 (guyTick tps m).
Proof.
  intros (Hc & Hn & Hs & Hv & Ht & Hb) Heq. unfold guyTick.
  rewrite (mobTick_due _ _ _ _ Ht) by (simpl; lia).
  cbv zeta. unfold guyEnterState, enterState. simpl. rewrite Hs. simpl.
  unfold guyOnStateUpdate, mobWait, wait. simpl. rewrite Hv. simpl.
  unfold guyWalkInv. simpl. rewrite Hc, Hb. simpl.
  repeat split; try done; try lia.
  unfold wait. simpl. do 2 f_equal. lia.
Qed.

Lemma guy_walk_step k r m :
  guyWalkInv k r m → S r < 2 * tps → guyWalkInv k (S r) (guyTick tps m).
Proof.
  intros (Hc & Hr & Hs & Hv & Hf & Ht & Hl & Hb) Hlt. unfold guyTick.
  rewrite (mobTick_pending _ _ _ _ Ht) by (simpl; lia).
  rewrite Hs. unfold guyOnStateUpdate. simpl. rewrite Hv.
  unfold guyWalkInv, side, vel in *.
  destruct (Nat.even k); simpl;
    rewrite Hc, length_app, last_snoc, Hl; simpl;
    repeat split; try done; lia.
Qed.

Lemma guy_turn_step k r m :
  guyWalkInv k r m → S r = 2 * tps → guyWalkInv (S k) 0 (guyTick tps m).
Proof.
  intros (Hc & Hr & Hs & Hv & Hf & Ht & Hl & Hb) Heq. unfold guyTick.
  rewrite (mobTick_due _ _ _ _ Ht) by (simpl; lia).
  cbv zeta. unfold guyEnterState, enterState. simpl. rewrite Hs.
  unfold guyWalkInv, side, vel in *.
  rewrite (Nat.even_succ (S k)), (Nat.odd_succ k), (Nat.even_succ k).
  unfold Nat.odd. simpl stateList.
  destruct (Nat.even k); simpl;
    unfold guyOnStateUpdate, mobWait, wait; simpl; rewrite Hv; simpl;
    rewrite Hc, length_app, last_snoc, Hl; simpl;
    (repeat split; try done; try lia);
    unfold wait; simpl; do 2 f_equal; lia.
Qed.

Lemma guy_idle_run n : n < tps → guyIdleInv n (guyRun tps n (makeGuyMob tps)).
Proof.
  induction n as [|n IH]; intros Hlt; [apply guy_spawn_inv|].
  simpl. apply guy_idle_step; [apply IH|]; lia.
Qed.

Lemma guy_walk_run k r :
  r < 2 * tps →
  guyWalkInv k r (guyRun tps (tps + 2 * tps * k + r) (makeGuyMob tps)).
Proof.
  revert r. induction k as [|k IHk]; intros r; induction r as [|r IHr]; intros Hlt.
  - replace (tps + 2 * tps * 0 + 0) with (S (tps - 1)) by lia. simpl.
    apply (guy_first_step (tps - 1)); [apply guy_idle_run|]; lia.
  - replace (tps + 2 * tps * 0 + S r) with (S (tps + 2 * tps * 0 + r)) by lia.
    simpl guyRun. apply guy_walk_step; [apply IHr|]; lia.
  - replace (tps + 2 * tps * S k + 0) with (S (tps + 2 * tps * k + (2 * tps - 1))) by lia.
    simpl guyRun. apply (guy_turn_step k (2 * tps - 1)); [apply IHk|]; lia.
  - replace (tps + 2 * tps * S k + S r) with (S (tps + 2 * tps * S k + r)) by lia.
    simpl guyRun. apply guy_walk_step; [apply IHr|]; lia.
Qed.
End GuyPatrol.

(** C7: with [tps] ticks to the second, a guy left to itself is idle and
    still for the first second, and from then on walks in phases of exactly
    two seconds each, to the left in the even phases and to the right in the
    odd ones, at 100 pixels per second: on tick [r] of phase [k] its state,
    its sprite flip and the one move it makes on that tick are those of the
    phase, so the direction flips exactly at each phase boundary. *)
Theorem guy_alternates_left_and_right (tps : nat) :
  0 < tps →
  (∀ n, n < tps →
     let m := Entities.guyRun tps n (Entities.makeGuyMob tps) in
     Engine.state (Entities.comp m) = "idle" ∧ Entities.mbody m = [])
  ∧ (∀ k r, r < 2 * tps →
     let m := Entities.guyRun tps (tps + 2 * tps * k + r) (Entities.makeGuyMob tps) in
     Engine.state (Entities.comp m) = (if Nat.even k then "left" else "right")
     ∧ Entities.mflipX m = Nat.odd k
     ∧ length (Entities.mbody m) = 2 * tps * k + r + 1
     ∧ last (Entities.mbody m)
       = Some (Engine.BMove (if Nat.even k then (-100)%Z else 100%Z) 0)).
Proof.
  intros Hpos. split.
  - intros n Hn m.
    destruct (guy_idle_run tps Hpos n Hn) as (_ & _ & Hs & _ & _ & Hb).
    unfold m. by rewrite Hs, Hb.
  - intros k r Hr m.
    destruct (guy_walk_run tps Hpos k r Hr) as (_ & _ & Hs & _ & Hf & _ & Hl & Hb).
    unfold m. by rewrite Hs, Hf, Hl, Hb.
Qed.

Lemma guy_alternates_left_and_right_witness :
  Engine.state (Entities.comp (Entities.guyRun 2 (2 + 2 * 2 * 1 + 3) (Entities.makeGuyMob 2)))
  = "right".
Proof.
  assert (0 < 2) as Hpos by lia.
  assert (3 < 2 * 2) as Hr by lia.
  exact (proj1 (proj2 (guy_alternates_left_and_right 2 Hpos) 1 3 Hr)).
Defined.

(* --------------------------------------------------------------------- *)
(** *** The jump cycle of the flame *)
(* --------------------------------------------------------------------- *)

Section FlameCycle.
Import Engine Entities.
Variable tps : nat.
Hypothesis tps_pos : 0 < tps.

Definition flameStates : list string := ["idle"; "jump"].

(** The flame has just entered Idle: the one pending timer is the jump
    due a second from now. *)
Definition flameIdleSince (m : Mob) : Prop :=
  comp m = mkStateComp flameStates "idle"
  ∧ mtimers m = [mkTimer (mclock m + tps) "jump"].

(** [j] ticks into the Idle that [m0] entered. *)
Definition flameWaitInv (m0 : Mob) (j : nat) (m : Mob) : Prop :=
  mclock m = mclock m0 + j
  ∧ comp m = mkStateComp flameStates "idle"
  ∧ mtimers m = [mkTimer (mclock m0 + tps) "jump"]
  ∧ mbody m = mbody m0.

(** In the air, [j] ticks after the jump that ended the Idle of [m0]. *)
Definition flameAirInv (m0 : Mob) (j : nat) (m : Mob) : Prop :=
  mclock m = mclock m0 + tps + j
  ∧ comp m = mkStateComp flameStates "jump"
  ∧ mtimers m = []
  ∧ mbody m = mbody m0 ++ [BJump 1000].

Lemma mobTick_no_timer enter update m :
  mtimers m = [] →
  mobTick enter update m = update (state (comp m)) (setMClock (S (mclock m)) m).
Proof.
  intros Ht. unfold mobTick. rewrite Ht. simpl.
  destruct m; simpl in *. by subst.
Qed.

Lemma makeFlameMob_idle : flameIdleSince (makeFlameMob tps).
Proof.
  unfold flameIdleSince, makeFlameMob, start. simpl. split; [done|].
  unfold wait. simpl. do 2 f_equal. lia.
Qed.

Lemma flame_wait_start m : flameIdleSince m → flameWaitInv m 0 m.
Proof.
  intros (Hs & Ht). unfold flameWaitInv. by rewrite Hs, Ht, Nat.add_0_r.
Qed.

Lemma flame_wait_step m0 j m g :
  flameWaitInv m0 j m → S j < tps → flameWaitInv m0 (S j) (flameTick tps g m).
Proof.
  intros (Hc & Hs & Ht & Hb) Hlt. unfold flameTick.
  rewrite (mobTick_pending _ _ _ _ Ht) by (simpl; lia).
  rewrite Hs. simpl. unfold flameWaitInv. simpl.
  rewrite Hc, Hs, Ht, Hb. repeat split; try done; lia.
Qed.

Lemma flame_takeoff m0 m :
  flameWaitInv m0 (tps - 1) m → flameAirInv m0 0 (flameTick tps false m).
Proof.
  intros (Hc & Hs & Ht & Hb). unfold flameTick.
  rewrite (mobTick_due _ _ _ _ Ht) by (simpl; lia).
  cbv zeta. unfold flameEnterState, enterState. simpl. rewrite Hs. simpl.
  unfold flameAirInv. simpl. rewrite Hc, Hb. repeat split; try done; lia.
Qed.

Lemma flame_takeoff_grounded m0 m :
  flameWaitInv m0 (tps - 1) m →
  let m' := flameTick tps true m in
  flameIdleSince m' ∧ mbody m' = mbody m0 ++ [BJump 1000]
  ∧ mclock m' = mclock m0 + tps + 0.
Proof.
  intros (Hc & Hs & Ht & Hb). unfold flameTick.
  rewrite (mobTick_due _ _ _ _ Ht) by (simpl; lia).
  cbv zeta. unfold flameEnterState, enterState. simpl. rewrite Hs. simpl.
  unfold flameIdleSince. simpl. rewrite Hc, Hb.
  repeat split; try done; try lia.
  unfold wait. simpl. do 2 f_equal. lia.
Qed.

Lemma flame_air_step m0 j m :
  flameAirInv m0 j m → flameAirInv m0 (S j) (flameTick tps false m).
Proof.
  intros (Hc & Hs & Ht & Hb). unfold flameTick.
  rewrite (mobTick_no_timer _ _ _ Ht). rewrite Hs. simpl.
  unfold flameAirInv. simpl. rewrite Hc, Hs, Ht, Hb.
  repeat split; try done; lia.
Qed.

Lemma flame_land m0 j m :
  flameAirInv m0 j m →
  let m' := flameTick tps true m in
  flameIdleSince m' ∧ mbody m' = mbody m0 ++ [BJump 1000]
  ∧ mclock m' = mclock m0 + tps + S j.
Proof.
  intros (Hc & Hs & Ht & Hb). unfold flameTick.
  rewrite (mobTick_no_timer _ _ _ Ht). rewrite Hs.
  unfold flameOnStateUpdate. simpl.
  unfold flameEnterState, enterState. simpl. rewrite Hs. simpl.
  unfold flameIdleSince. simpl. rewrite Hc, Hb.
  repeat split; try done; try lia.
  unfold wait. simpl. rewrite Ht. simpl. do 2 f_equal. lia.
Qed.

Lemma flameRun_snoc gs g m :
  flameRun tps (gs ++ [g]) m = flameTick tps g (flameRun tps gs m).
Proof. unfold flameRun. by rewrite foldl_app. Qed.

Lemma flame_wait_run m gs :
  flameIdleSince m → length gs < tps →
  flameWaitInv m (length gs) (flameRun tps gs m).
Proof.
  intros Hi. induction gs as [|g gs IH] using rev_ind; intros Hlt.
  - by apply flame_wait_start.
  - rewrite flameRun_snoc, length_app. simpl.
    rewrite length_app in Hlt. simpl in Hlt.
    replace (length gs + 1) with (S (length gs)) by lia.
    apply flame_wait_step; [apply IH|]; lia.
Qed.

Lemma flame_air_run m gs j :
  flameIdleSince m → length gs = tps - 1 →
  flameAirInv m j (flameRun tps (gs ++ replicate (S j) false) m).
Proof.
  intros Hi Hlen. induction j as [|j IH].
  - simpl. rewrite flameRun_snoc. apply flame_takeoff.
    rewrite <- Hlen. apply flame_wait_run; [done|lia].
  - rewrite replicate_S_end, app_assoc, flameRun_snoc.
    by apply flame_air_step.
Qed.
End FlameCycle.

(** C8: with [tps] ticks to the second, a flame that has just entered Idle
    stays idle, without any impulse, for the ticks before the second has
    passed; on the tick that completes the second it enters Jump with
    exactly one upward impulse of 1000; it stays in Jump on every tick on
    which the grounded check is false and is back in Idle exactly on the
    first tick on which the check is true, with the next jump again due one
    second later, so that the cycle repeats without end. *)
Theorem flame_jump_cycle (tps : nat) (m : Entities.Mob) :
  0 < tps → flameIdleSince tps m →
  (∀ gs, length gs < tps →
     let m' := Entities.flameRun tps gs m in
     Engine.state (Entities.comp m') = "idle"
     ∧ Entities.mbody m' = Entities.mbody m)
  ∧ (∀ gs j, length gs = tps - 1 →
     let m' := Entities.flameRun tps (gs ++ replicate (S j) false) m in
     Engine.state (Entities.comp m') = "jump"
     ∧ Entities.mbody m' = Entities.mbody m ++ [Engine.BJump 1000])
  ∧ (∀ gs j, length gs = tps - 1 →
     let m' := Entities.flameRun tps (gs ++ replicate j false ++ [true]) m in
     flameIdleSince tps m'
     ∧ Entities.mbody m' = Entities.mbody m ++ [Engine.BJump 1000]
     ∧ Entities.mclock m' = Entities.mclock m + tps + j).
Proof.
  intros Hpos Hi.
  assert (∀ gs j, length gs = tps - 1 →
            flameAirInv tps m j (Entities.flameRun tps (gs ++ replicate (S j) false) m))
    as Hair by (intros; apply flame_air_run; auto).
  assert (∀ gs, length gs < tps →
            flameWaitInv tps m (length gs) (Entities.flameRun tps gs m))
    as Hwait by (intros; apply flame_wait_run; auto).
  split; [|split].
  - intros gs Hlen m'. destruct (Hwait gs Hlen) as (_ & Hs & _ & Hb).
    unfold m'. by rewrite Hs, Hb.
  - intros gs j Hlen m'. destruct (Hair gs j Hlen) as (_ & Hs & _ & Hb).
    unfold m'. by rewrite Hs, Hb.
  - intros gs j Hlen m'. unfold m'. destruct j as [|j].
    + simpl. rewrite flameRun_snoc.
      apply flame_takeoff_grounded with (m0 := m); [done|].
      rewrite <- Hlen. apply Hwait. lia.
    + rewrite app_assoc, flameRun_snoc.
      apply flame_land with (m0 := m) (j := j); auto.
Qed.

Lemma flame_jump_cycle_witness :
  Engine.state (Entities.comp
    (Entities.flameRun 2 ([true] ++ replicate 2 false) (Entities.makeFlameMob 2)))
  = "jump".
Proof.
  assert (0 < 2) as Hpos by lia.
  assert (flameIdleSince 2 (Entities.makeFlameMob 2)) as Hi by (split; reflexivity).
  assert (length [true] = 2 - 1) as Hl by reflexivity.
  exact (proj1 (proj1 (proj2 (flame_jump_cycle 2 _ Hpos Hi)) [true] 1 Hl)).
Defined.

(* --------------------------------------------------------------------- *)
(** *** The player: damage and capture *)
(* --------------------------------------------------------------------- *)

Section PlayerFacts.
Import Engine Entities.

Lemma player_destroy r w : player (destroy r w) = player w.
Proof. unfold destroy. destruct (alive r w); [|done]. by destruct r. Qed.

Lemma game_destroy r w : game (destroy r w) = game w.
Proof. unfold destroy. destruct (alive r w); [|done]. by destruct r. Qed.

Lemma calls_destroy r w : calls (destroy r w) = calls w ++ [Destroy r].
Proof. unfold destroy. destruct (alive r w); [|done]. by destruct r. Qed.

Lemma opacity_destroy r w : inhaleEffectOpacity (destroy r w) = inhaleEffectOpacity w.
Proof. unfold destroy. destruct (alive r w); [|done]. by destruct r. Qed.

Lemma enemies_destroy_player w : enemies (destroy RPlayer w) = enemies w.
Proof. unfold destroy. by destruct (alive RPlayer w). Qed.

Lemma alive_destroy r w : alive r (destroy r w) = false.
Proof.
  unfold destroy. destruct (alive r w) eqn:Ha; [|done].
  destruct r; simpl in *; try done.
  - rewrite lookup_alter_eq. by destruct (enemies w !! id).
  - rewrite lookup_alter_eq. by destruct (stars w !! id).
Qed.

(** A bird that leaves the screen is taken out of the scene if it is still
    there; every other object is left as it is. *)
Lemma birdOffscreen_shape id w :
  birdOffscreen id w = w
  ∨ (alive (REnemy id) w = true
     ∧ birdOffscreen id w = logDestroyEvent (REnemy id) (detach (REnemy id) w)).
Proof.
  unfold birdOffscreen. simpl.
  destruct (enemies w !! id) as [[k ? ? ? x ?]|] eqn:He; [|by left].
  destruct k; [by left|by left|]. destruct x; [right|by left].
  by split.
Qed.

(** The three branches of the player's enemy-contact handler. *)
Lemma onCollideEnemy_capture id en w :
  enemies w !! id = Some en →
  isInhaling (player w) = true → truthy (isInhalable en) = true →
  onCollideEnemy id w =
    (let w2 := destroy (REnemy id) (setPlayer (setIsInhaling false (player w)) w) in
     setPlayer (setIsFull true (player w2)) w2).
Proof. intros He Hi Ht. unfold onCollideEnemy. by rewrite He, Hi, Ht. Qed.

Lemma onCollideEnemy_lethal id en w :
  enemies w !! id = Some en →
  isInhaling (player w) && truthy (isInhalable en) = false →
  hp (player w) = 0%Z →
  onCollideEnemy id w = go (State.currentScene (game w)) (destroy RPlayer w).
Proof. intros He Hi Hz. unfold onCollideEnemy. by rewrite He, Hi, Hz. Qed.

Lemma onCollideEnemy_damage id en w :
  enemies w !! id = Some en →
  isInhaling (player w) && truthy (isInhalable en) = false →
  hp (player w) ≠ 0%Z →
  onCollideEnemy id w = logCall Flicker (hurt w).
Proof.
  intros He Hi Hz. unfold onCollideEnemy. rewrite He, Hi.
  by destruct (Z.eqb_spec (hp (player w)) 0).
Qed.
End PlayerFacts.

(** C1, on the code: from health 3, three successive enemy contacts that
    are not captures take the health to zero, one point each, but none of
    them destroys the player or restarts the scene; the handler tests for
    zero health before it takes the point, so it is a fourth contact that
    destroys the player and restarts the current scene, once. *)
Theorem lethal_contact_is_the_fourth (tps : nat) (w : Entities.World) (a b c d : nat) :
  Entities.hp (Entities.player w) = 3%Z →
  Entities.isInhaling (Entities.player w) = false →
  is_Some (Entities.enemies w !! a) → is_Some (Entities.enemies w !! b) →
  is_Some (Entities.enemies w !! c) → is_Some (Entities.enemies w !! d) →
  let w3 := Entities.run tps
              [Entities.PlayerCollideEnemy a; Entities.PlayerCollideEnemy b;
               Entities.PlayerCollideEnemy c] w in
  let w4 := Entities.step tps w3 (Entities.PlayerCollideEnemy d) in
  Entities.hp (Entities.player w3) = 0%Z
  ∧ Entities.playerExists w3 = Entities.playerExists w
  ∧ Entities.calls w3
    = Entities.calls w ++ [Engine.Flicker; Engine.Flicker; Engine.Flicker]
  ∧ Entities.calls w4
    = Entities.calls w3
      ++ [Engine.Destroy Engine.RPlayer;
          Engine.Go (State.currentScene (Entities.game w))]
  ∧ Entities.playerExists w4 = false.
Proof.
  intros Hhp Hin [ea Ha] [eb Hb] [ec Hc] [ed Hd] w3 w4.
  assert (w3 = Entities.logCall Engine.Flicker (Entities.hurt
            (Entities.logCall Engine.Flicker (Entities.hurt
              (Entities.logCall Engine.Flicker (Entities.hurt w)))))) as E3.
  { unfold w3, Entities.run. simpl.
    rewrite (onCollideEnemy_damage a ea w); [|done|by rewrite Hin|by rewrite Hhp].
    rewrite (onCollideEnemy_damage b eb);
      [|done|by simpl; rewrite Hin|by simpl; rewrite Hhp].
    rewrite (onCollideEnemy_damage c ec);
      [|done|by simpl; rewrite Hin|by simpl; rewrite Hhp].
    done. }
  assert (w4 = Entities.go (State.currentScene (Entities.game w3))
                 (Entities.destroy Engine.RPlayer w3)) as E4.
  { unfold w4. simpl. apply (onCollideEnemy_lethal d ed).
    - by rewrite E3.
    - rewrite E3. simpl. by rewrite Hin.
    - rewrite E3. simpl. rewrite Hhp. done. }
  repeat split.
  - rewrite E3. simpl. by rewrite Hhp.
  - by rewrite E3.
  - rewrite E3. simpl. by rewrite <- !app_assoc.
  - rewrite E4. unfold Entities.go. simpl. rewrite calls_destroy.
    rewrite <- app_assoc. simpl. by rewrite E3.
  - rewrite E4. unfold Entities.go. simpl.
    exact (alive_destroy Engine.RPlayer w3).
Qed.

(** A small level used to run the handlers: a player, two flames (objects
    0 and 1), one guy (object 2) and one bird spawn point. *)
Definition sampleSpawns : Main.SpawnPoints :=
  {| Main.spPlayer := [(10, 20)%Z];
     Main.spFlame := [(30, 20)%Z; (50, 20)%Z];
     Main.spGuy := [(40, 20)%Z];
     Main.spBird := [(90, 5)%Z] |}.

Definition sampleWorld : Entities.World :=
  Main.scene 60
    (State.setNextScene "level-2" (State.setCurrentScene "level-1" State.globalGameState))
    10 20 (Main.spFlame sampleSpawns) (Main.spGuy sampleSpawns).

Lemma sampleWorld_is_level_1 :
  Main.level 60 "level-1" "level-2" sampleSpawns State.globalGameState
  = Some sampleWorld.
Proof. reflexivity. Qed.

Lemma lethal_contact_is_the_fourth_witness :
  Entities.hp (Entities.player
    (Entities.run 60
       [Entities.PlayerCollideEnemy 0; Entities.PlayerCollideEnemy 1;
        Entities.PlayerCollideEnemy 2] sampleWorld)) = 0%Z.
Proof.
  refine (proj1 (lethal_contact_is_the_fourth 60 sampleWorld 0 1 2 0 _ _ _ _ _ _));
    try reflexivity; eexists; reflexivity.
Defined.

Section Reachability.
Import Engine Entities.
Variable tps : nat.

Lemma play_current w : play (anim (player w)) w = w.
Proof. by destruct w as [[] ? ? ? ? ? ? ? ? ? ?]. Qed.

Lemma play_play a b w : play a (play b w) = play a w.
Proof. done. Qed.

Lemma foldl_runPCont ts w :
  ∃ a, foldl (λ acc t, runPCont (cont t) acc) w ts = play a w.
Proof.
  revert w. induction ts as [|[d [b]] ts IH]; intros w.
  - exists (anim (player w)). by rewrite play_current.
  - simpl. destruct (IH (play b w)) as [a Ha]. exists a. by rewrite Ha.
Qed.

(** A scheduler tick moves the clock, drops the timers that ran and at
    most changes the animation of the player. *)
Lemma tick_shape w :
  ∃ a ts, tick w = play a (setTimers ts (setClock (S (clock w)) w)).
Proof.
  unfold tick.
  destruct (foldl_runPCont (List.filter (due (S (clock w))) (timers w))
              (setTimers (List.filter (λ t, negb (due (S (clock w)) t)) (timers w))
                 (setClock (S (clock w)) w))) as [a Ha].
  eauto.
Qed.

(** Spec §3, invariant 3, in the booleans of the source: the player is
    never Full and Inhaling at once. *)
Definition exclusive (w : World) : Prop :=
  isFull (player w) = true → isInhaling (player w) = false.

Lemma exclusive_step w e : exclusive w → exclusive (step tps w e).
Proof.
  unfold exclusive. intros Hx. destruct e; simpl; try done.
  - unfold onKeyDown.
    destruct (String.eqb key "left"); [done|].
    destruct (String.eqb key "right"); [done|].
    destruct (String.eqb key "z"); [|done].
    destruct (isFull (player w)) eqn:Hf; simpl; [by rewrite Hf|by rewrite Hf].
  - unfold onKeyPress. by destruct (String.eqb key "x").
  - unfold onKeyRelease.
    destruct (String.eqb key "z"); [|done].
    by destruct (isFull (player w)) eqn:Hf; simpl.
  - unfold onCollideEnemy.
    destruct (enemies w !! id) as [en|]; [|done].
    destruct (isInhaling (player w) && truthy (isInhalable en)).
    + simpl. by rewrite player_destroy.
    + destruct (hp (player w) =? 0)%Z; simpl; [by rewrite player_destroy|done].
  - unfold playerOnUpdate. by destruct (2000 <? snd (pos (player w)))%Z.
  - unfold onCollideShootingStar. by rewrite !player_destroy.
  - unfold enemyOnUpdate.
    destruct (enemies w !! id) as [en|]; [|done].
    destruct (isInhaling (player w) && truthy (isInhalable en)); [|done].
    by destruct (String.eqb (direction (player w)) "right").
  - by destruct (birdOffscreen_shape id w) as [->|[_ ->]].
  - unfold starOnCollidePlatform. by rewrite player_destroy.
  - destruct (tick_shape w) as (a & ts & ->). done.
Qed.

Lemma exclusive_run es w : exclusive w → exclusive (run tps es w).
Proof.
  revert w. induction es as [|e es IH]; intros w Hx; [done|].
  apply IH. by apply exclusive_step.
Qed.

(** A contact that is not a capture leaves every enemy as it was. *)
Lemma onCollideEnemy_not_inhaling id w :
  isInhaling (player w) = false →
  enemies (onCollideEnemy id w) = enemies w
  ∧ isFull (player (onCollideEnemy id w)) = isFull (player w)
  ∧ isInhaling (player (onCollideEnemy id w)) = false.
Proof.
  intros Hi. unfold onCollideEnemy.
  destruct (enemies w !! id) as [en|]; [|done].
  rewrite Hi. simpl.
  destruct (hp (player w) =? 0)%Z; simpl.
  - by rewrite enemies_destroy_player, player_destroy.
  - done.
Qed.
End Reachability.

(** C3, as the code has it: a contact between the Inhaling player and an
    enemy whose [isInhalable] is set destroys that enemy and takes the
    player from Inhaling to Full, at no cost in health.  The contact itself
    leaves the inhale effect as it was; it is the next key-down tick of the
    inhale key, now that the player is Full, that hides it.  As long as the
    player stays Full, whatever happens in between, a further contact
    captures nothing: no enemy is changed and the player stays Full. *)
Theorem capture_on_inhalable_contact (tps : nat) (w : Entities.World)
    (id : nat) (en : Entities.Enemy) :
  Entities.enemies w !! id = Some en →
  Entities.isInhaling (Entities.player w) = true →
  Entities.truthy (Entities.isInhalable en) = true →
  let w' := Entities.step tps w (Entities.PlayerCollideEnemy id) in
  Entities.alive (Engine.REnemy id) w' = false
  ∧ Entities.calls w' = Entities.calls w ++ [Engine.Destroy (Engine.REnemy id)]
  ∧ Entities.isInhaling (Entities.player w') = false
  ∧ Entities.isFull (Entities.player w') = true
  ∧ Entities.hp (Entities.player w') = Entities.hp (Entities.player w)
  ∧ Entities.inhaleEffectOpacity w' = Entities.inhaleEffectOpacity w
  ∧ Entities.inhaleEffectOpacity (Entities.step tps w' (Entities.KeyDown "z")) = 0%Z
  ∧ (∀ (es : list Entities.Event) (id2 : nat),
       let w2 := Entities.run tps es w' in
       Entities.isFull (Entities.player w2) = true →
       let w3 := Entities.step tps w2 (Entities.PlayerCollideEnemy id2) in
       Entities.enemies w3 = Entities.enemies w2
       ∧ Entities.isFull (Entities.player w3) = true
       ∧ Entities.isInhaling (Entities.player w3) = false).
Proof.
  intros He Hi Ht w'.
  assert (w' = let w2 := Entities.destroy (Engine.REnemy id)
                 (Entities.setPlayer (Entities.setIsInhaling false (Entities.player w)) w) in
               Entities.setPlayer (Entities.setIsFull true (Entities.player w2)) w2) as E.
  { unfold w'. simpl. by apply (onCollideEnemy_capture id en). }
  cbv zeta in E.
  assert (Entities.isFull (Entities.player w') = true) as Hf by (by rewrite E).
  assert (Entities.isInhaling (Entities.player w') = false) as Hn.
  { rewrite E. simpl. by rewrite player_destroy. }
  repeat split; try done.
  - rewrite E. exact (alive_destroy (Engine.REnemy id) _).
  - rewrite E. simpl. by rewrite calls_destroy.
  - rewrite E. simpl. by rewrite player_destroy.
  - rewrite E. simpl. by rewrite opacity_destroy.
  - simpl. unfold Entities.onKeyDown. simpl. by rewrite Hf.
  - destruct (onCollideEnemy_not_inhaling id2 (Entities.run tps es w')) as (H1 & _);
      [|exact H1].
    apply (exclusive_run tps es w'); [|done]. by intros _.
  - destruct (onCollideEnemy_not_inhaling id2 (Entities.run tps es w')) as (_ & H2 & _);
      [|simpl; by rewrite H2].
    apply (exclusive_run tps es w'); [|done]. by intros _.
  - destruct (onCollideEnemy_not_inhaling id2 (Entities.run tps es w')) as (_ & _ & H3);
      [|exact H3].
    apply (exclusive_run tps es w'); [|done]. by intros _.
Qed.

(** C3, counterexample: the player holds the inhale key, the first flame
    enters the inhale zone and touches the player.  The flame is destroyed
    and the player is Full, yet the inhale effect is still shown. *)
Lemma capture_leaves_inhale_effect_shown :
  let w := Entities.run 60
             [Entities.KeyDown "z"; Entities.EnemyCollideZone 0;
              Entities.PlayerCollideEnemy 0] sampleWorld in
  Entities.isFull (Entities.player w) = true
  ∧ Entities.alive (Engine.REnemy 0) w = false
  ∧ Entities.inhaleEffectOpacity w = 1%Z.
Proof. vm_compute. done. Qed.

Lemma capture_on_inhalable_contact_witness :
  Entities.isFull (Entities.player
    (Entities.step 60
       (Entities.run 60 [Entities.KeyDown "z"; Entities.EnemyCollideZone 0] sampleWorld)
       (Entities.PlayerCollideEnemy 0))) = true.
Proof.
  refine (proj1 (proj2 (proj2 (proj2
    (capture_on_inhalable_contact 60
       (Entities.run 60 [Entities.KeyDown "z"; Entities.EnemyCollideZone 0] sampleWorld)
       0 _ _ _ _)))));
    reflexivity.
Defined.

(* --------------------------------------------------------------------- *)
(** *** The [isInhalable] flag *)
(* --------------------------------------------------------------------- *)

(** The flag of enemy [id], if the object exists in the store. *)
Definition inhalableOf (id : nat) (w : Entities.World) : option (option bool) :=
  Entities.isInhalable <$> Entities.enemies w !! id.

(** What an event does to the flag of enemy [id]: only the begin and the
    end of its own overlap with the inhale zone write it. *)
Definition flagAfter (id : nat) (e : Entities.Event) (old : option bool) : option bool :=
  match e with
  | Entities.EnemyCollideZone j => if decide (j = id) then Some true else old
  | Entities.EnemyCollideEndZone j => if decide (j = id) then Some false else old
  | _ => old
  end.

Section FlagFacts.
Import Engine Entities.
Variable tps : nat.

Lemma inhalable_alter (f : Enemy → Enemy) j id (m : gmap nat Enemy) :
  (∀ e, isInhalable (f e) = isInhalable e) →
  isInhalable <$> alter f j m !! id = isInhalable <$> m !! id.
Proof.
  intros Hf. rewrite lookup_alter. case_decide as Hj; [|done].
  subst j. destruct (m !! id); simpl; [by rewrite Hf|done].
Qed.

Lemma inhalable_destroy r id w :
  inhalableOf id (destroy r w) = inhalableOf id w.
Proof.
  unfold inhalableOf, destroy. destruct (alive r w); [|done].
  destruct r; simpl; try done. by apply inhalable_alter.
Qed.

Lemma inhalable_set v j id w :
  inhalableOf id (alterEnemy (setIsInhalable v) j w)
  = (λ old, if decide (j = id) then v else old) <$> inhalableOf id w.
Proof.
  unfold inhalableOf, alterEnemy. simpl. rewrite lookup_alter.
  case_decide as Hj.
  - subst j. by destruct (enemies w !! id).
  - by destruct (enemies w !! id).
Qed.

Lemma fmap_same {A} (o : option A) : (λ x, x) <$> o = o.
Proof. by destruct o. Qed.

Lemma inhalable_step w e id :
  inhalableOf id (step tps w e) = flagAfter id e <$> inhalableOf id w.
Proof.
  destruct e; simpl; unfold flagAfter; rewrite ?fmap_same; try done.
  - unfold onKeyDown.
    destruct (String.eqb key "left"); [done|].
    destruct (String.eqb key "right"); [done|].
    destruct (String.eqb key "z"); [|done].
    by destruct (isFull (player w)).
  - unfold onKeyPress. by destruct (String.eqb key "x").
  - unfold onKeyRelease.
    destruct (String.eqb key "z"); [|done].
    by destruct (isFull (player w)).
  - unfold onCollideEnemy.
    destruct (enemies w !! id0) as [en|]; [|done].
    destruct (isInhaling (player w) && truthy (isInhalable en)).
    + change (inhalableOf id (destroy (REnemy id0)
                (setPlayer (setIsInhaling false (player w)) w)) = inhalableOf id w).
      by rewrite inhalable_destroy.
    + destruct (hp (player w) =? 0)%Z; [|done].
      change (inhalableOf id (destroy RPlayer w) = inhalableOf id w).
      by rewrite inhalable_destroy.
  - unfold playerOnUpdate. by destruct (2000 <? snd (pos (player w)))%Z.
  - apply inhalable_set.
  - apply inhalable_set.
  - unfold onCollideShootingStar. by rewrite !inhalable_destroy.
  - unfold enemyOnUpdate.
    destruct (enemies w !! id0) as [en|]; [|done].
    destruct (isInhaling (player w) && truthy (isInhalable en)); [|done].
    by destruct (String.eqb (direction (player w)) "right").
  - destruct (birdOffscreen_shape id0 w) as [->|[_ ->]]; [done|].
    unfold inhalableOf. simpl. by apply inhalable_alter.
  - unfold inhalableOf, alterEnemy. simpl. apply inhalable_alter.
    intros e. unfold enemyTick. by destruct (kind e).
  - unfold starOnCollidePlatform. by rewrite inhalable_destroy.
  - by destruct (tick_shape w) as (a & ts & ->).
Qed.
End FlagFacts.

(** C2, as the code has it: the flag of an enemy follows its overlap with
    the inhale zone and nothing else.  Every begin-overlap sets it,
    whatever the player is doing, every end-overlap clears it, and no other
    event writes it, pressing or releasing the inhale key included.  That
    the player is Inhaling is tested where the flag is used: the enemy is
    pulled (at 800, against the player's facing) on exactly the updates on
    which the player is Inhaling and the flag is set. *)
Theorem inhalable_follows_zone_overlap (tps : nat) (w : Entities.World) (id : nat) :
  (∀ e : Entities.Event,
     inhalableOf id (Entities.step tps w e) = flagAfter id e <$> inhalableOf id w)
  ∧ (∀ en : Entities.Enemy,
       Entities.enemies w !! id = Some en →
       Entities.calls (Entities.step tps w (Entities.EnemyUpdate id))
       = Entities.calls w
         ++ (if Entities.isInhaling (Entities.player w)
                && Entities.truthy (Entities.isInhalable en)
             then [Engine.Body (Engine.REnemy id)
                     (Engine.BMove
                        (if String.eqb (Entities.direction (Entities.player w)) "right"
                         then (-800)%Z else 800%Z) 0)]
             else [])).
Proof.
  split.
  - intros e. apply inhalable_step.
  - intros en He. simpl. unfold Entities.enemyOnUpdate. rewrite He.
    destruct (Entities.isInhaling (Entities.player w)
              && Entities.truthy (Entities.isInhalable en)).
    + by destruct (String.eqb (Entities.direction (Entities.player w)) "right").
    + by rewrite app_nil_r.
Qed.

Lemma inhalable_follows_zone_overlap_witness :
  Entities.calls (Entities.step 60 sampleWorld (Entities.EnemyUpdate 2))
  = Entities.calls sampleWorld ++ [].
Proof.
  refine (proj2 (inhalable_follows_zone_overlap 60 sampleWorld 2) _ _).
  reflexivity.
Defined.

(** C2, counterexample: the first flame enters the inhale zone of a player
    who is not inhaling, and its flag is set all the same; and when it
    enters while the player inhales, the flag outlives the release of the
    inhale key. *)
Lemma inhalable_set_without_inhaling :
  (let w := Entities.run 60 [Entities.EnemyCollideZone 0] sampleWorld in
   inhalableOf 0 w = Some (Some true)
   ∧ Entities.isInhaling (Entities.player w) = false)
  ∧ (let w := Entities.run 60
                [Entities.KeyDown "z"; Entities.EnemyCollideZone 0;
                 Entities.KeyRelease "z"] sampleWorld in
     inhalableOf 0 w = Some (Some true)
     ∧ Entities.isInhaling (Entities.player w) = false).
Proof. vm_compute. done. Qed.

(* --------------------------------------------------------------------- *)
(** *** Releasing the inhale key *)
(* --------------------------------------------------------------------- *)

Section ReleaseFacts.
Import Engine Entities.
Variable tps : nat.

Lemma tick_pending w t :
  timers w = [t] → S (clock w) < deadline t →
  tick w = setClock (S (clock w)) w.
Proof.
  intros Ht Hlt. unfold tick. rewrite Ht. simpl. unfold due.
  destruct (Nat.leb_spec (deadline t) (S (clock w))) as [Hle|_]; [lia|].
  simpl. destruct w; simpl in *. by subst.
Qed.

Lemma tick_due w t :
  timers w = [t] → deadline t = S (clock w) →
  tick w = runPCont (cont t) (setTimers [] (setClock (S (clock w)) w)).
Proof.
  intros Ht Hd. unfold tick. rewrite Ht. simpl. unfold due.
  by rewrite Hd, Nat.leb_refl.
Qed.

Lemma run_snoc es e w : run tps (es ++ [e]) w = step tps (run tps es w) e.
Proof. unfold run. by rewrite foldl_app. Qed.

(** While the only timer is pending, ticks only move the clock. *)
Lemma ticks_pending w t j :
  timers w = [t] → clock w + j < deadline t →
  run tps (replicate j Tick) w = setClock (clock w + j) w.
Proof.
  intros Ht. induction j as [|j IH]; intros Hlt.
  - simpl. rewrite Nat.add_0_r. by destruct w.
  - rewrite replicate_S_end, run_snoc, IH by lia. simpl.
    rewrite (tick_pending _ t); [|done|simpl; lia]. simpl.
    by replace (clock w + S j) with (S (clock w + j)) by lia.
Qed.
End ReleaseFacts.

(** C6, as the code has it: releasing the inhale key while Full makes
    exactly one projectile, placed 80 to the facing side of the player and
    moving at 800 to the left when the player faces left and to the right
    when it faces right.  The player stops being Full at once, on the
    release itself; what is delayed is the animation only: it is set to
    the inhaling one on release, and a timer of one second is registered
    that sets the idle one.  A second release makes no further projectile.
    If no other timer is pending, the animation stays the inhaling one
    until the second has passed and is the idle one from then on. *)
Theorem release_when_full_shoots (tps : nat) (w : Entities.World) :
  Entities.isFull (Entities.player w) = true →
  let w' := Entities.step tps w (Entities.KeyRelease "z") in
  let star := Entities.shootingStar (Entities.player w) in
  Entities.stars w' = <[Entities.nextId w := star]> (Entities.stars w)
  ∧ Entities.nextId w' = S (Entities.nextId w)
  ∧ (Entities.direction (Entities.player w) = "left" →
     Entities.smove star = (Engine.LEFT, 800%Z)
     ∧ Entities.spos star
       = (fst (Entities.pos (Entities.player w)) - 80,
          snd (Entities.pos (Entities.player w)) + 5)%Z)
  ∧ (Entities.direction (Entities.player w) = "right" →
     Entities.smove star = (Engine.RIGHT, 800%Z)
     ∧ Entities.spos star
       = (fst (Entities.pos (Entities.player w)) + 80,
          snd (Entities.pos (Entities.player w)) + 5)%Z)
  ∧ Entities.isFull (Entities.player w') = false
  ∧ Entities.clock w' = Entities.clock w
  ∧ Entities.anim (Entities.player w') = "kirbInhaling"
  ∧ Entities.timers w'
    = Entities.timers w
      ++ [Engine.mkTimer (Entities.clock w + 1 * tps) (Entities.PlayAnim "kirbIdle")]
  ∧ Entities.stars (Entities.step tps w' (Entities.KeyRelease "z")) = Entities.stars w'
  ∧ (Entities.timers w = [] → 0 < tps →
     (∀ j, j < tps →
        Entities.anim (Entities.player
          (Entities.run tps (replicate j Entities.Tick) w')) = "kirbInhaling")
     ∧ Entities.anim (Entities.player
         (Entities.run tps (replicate tps Entities.Tick) w')) = "kirbIdle").
Proof.
  intros Hf w' star.
  assert (w' = Entities.setTimers
                 (Engine.wait tps (Entities.clock w) 1 (Entities.PlayAnim "kirbIdle")
                    (Entities.timers w))
                 (Entities.setPlayer
                    (Entities.setIsFull false (Entities.setAnim "kirbInhaling" (Entities.player w)))
                    (Entities.addStar star (Entities.play "kirbInhaling" w)))) as E.
  { unfold w'. simpl. unfold Entities.onKeyRelease. simpl. by rewrite Hf. }
  repeat apply conj; try (by rewrite E).
  - intros Hd. unfold star, Entities.shootingStar. by rewrite Hd.
  - intros Hd. unfold star, Entities.shootingStar. by rewrite Hd.
  - intros Ht Hpos.
    set (t := Engine.mkTimer (Entities.clock w + 1 * tps) (Entities.PlayAnim "kirbIdle")).
    assert (Entities.timers w' = [t]) as Ht' by (rewrite E; simpl; by rewrite Ht).
    assert (Entities.clock w' = Entities.clock w) as Hc by (by rewrite E).
    split.
    + intros j Hj. rewrite (ticks_pending tps w' t j); [by rewrite E|done|].
      rewrite Hc. simpl. lia.
    + destruct tps as [|n] eqn:Etps; [lia|].
      rewrite replicate_S_end, run_snoc.
      rewrite (ticks_pending (S n) w' t n); [|done|rewrite Hc; simpl; lia].
      simpl. rewrite (tick_due _ t); [done|done|].
      simpl. rewrite Hc. lia.
Qed.

(** The player of the sample level once it has swallowed the first flame. *)
Definition fullWorld : Entities.World :=
  Entities.run 60
    [Entities.KeyDown "z"; Entities.EnemyCollideZone 0; Entities.PlayerCollideEnemy 0]
    sampleWorld.

Lemma release_when_full_shoots_witness :
  Entities.isFull (Entities.player (Entities.step 60 fullWorld (Entities.KeyRelease "z")))
  = false.
Proof.
  refine (proj1 (proj2 (proj2 (proj2 (proj2
    (release_when_full_shoots 60 fullWorld _)))))).
  reflexivity.
Defined.

(** C6, counterexample: on the very release, before any time has passed
    and with the one-second timer still pending, the player is no longer
    Full, and the animation shown during the second is the inhaling one,
    not the full one. *)
Lemma release_clears_full_at_once :
  let w' := Entities.step 60 fullWorld (Entities.KeyRelease "z") in
  Entities.isFull (Entities.player fullWorld) = true
  ∧ Entities.isFull (Entities.player w') = false
  ∧ Entities.clock w' = Entities.clock fullWorld
  ∧ Entities.timers w' = [Engine.mkTimer 60 (Entities.PlayAnim "kirbIdle")]
  ∧ Entities.anim (Entities.player w') = "kirbInhaling"
  ∧ Entities.anim (Entities.player w') ≠ "kirbFull".
Proof. vm_compute. by repeat split. Qed.

(* --------------------------------------------------------------------- *)
(** *** Destroying objects *)
(* --------------------------------------------------------------------- *)

Section DestroyFacts.
Import Engine Entities.
Variable tps : nat.

(** The object is in the store and has been taken out of the scene. *)
Definition destroyed (r : Ref) (w : World) : Prop :=
  match r with
  | RPlayer => playerExists w = false
  | REnemy id => ∃ e, enemies w !! id = Some e ∧ eexists e = false
  | RStar id => ∃ s, stars w !! id = Some s ∧ sexists s = false
  end.

(** The destroy events raised so far name distinct objects, all of them
    out of the scene, and the identifiers from [nextId] on are unused. *)
Definition wf (w : World) : Prop :=
  NoDup (destroyEvents w)
  ∧ (∀ r, r ∈ destroyEvents w → destroyed r w)
  ∧ (∀ id, nextId w ≤ id → stars w !! id = None).

Lemma destroyed_not_alive r w : destroyed r w → alive r w = false.
Proof.
  destruct r; simpl; [done| |].
  - by intros (e & -> & He).
  - by intros (s & -> & Hs).
Qed.



Lemma destroyed_detach r r' w : destroyed r' w → destroyed r' (detach r w).
Proof.
  destruct r, r'; simpl; try done.
  - intros (e & He & Hx). destruct (decide (id = id0)) as [->|Hne].
    + exists (setEExists false e). by rewrite lookup_alter_eq, He.
    + exists e. by rewrite lookup_alter_ne.
  - intros (s & Hs & Hx). destruct (decide (id = id0)) as [->|Hne].
    + exists (setSExists false s). by rewrite lookup_alter_eq, Hs.
    + exists s. by rewrite lookup_alter_ne.
Qed.

Lemma destroyed_after_detach r w : alive r w = true → destroyed r (detach r w).
Proof.
  destruct r; simpl; [done| |].
  - destruct (enemies w !! id) as [e|] eqn:He; [|done]. intros _.
    exists (setEExists false e). by rewrite lookup_alter_eq, He.
  - destruct (stars w !! id) as [s|] eqn:Hs; [|done]. intros _.
    exists (setSExists false s). by rewrite lookup_alter_eq, Hs.
Qed.

Lemma stars_detach_None r w id :
  stars w !! id = None → stars (detach r w) !! id = None.
Proof.
  intros Hn. destruct r; simpl; try done.
  by apply lookup_alter_None.
Qed.

Lemma wf_destroy r w : wf w → wf (destroy r w).
Proof.
  intros (Hnd & Hd & Hfresh). unfold destroy.
  destruct (alive r w) eqn:Ha; [|done].
  assert (destroyEvents (detach r (logCall (Destroy r) w)) = destroyEvents w) as E1
    by (by destruct r).
  assert (nextId (detach r (logCall (Destroy r) w)) = nextId w) as E2
    by (by destruct r).
  repeat split; simpl.
  - rewrite E1. apply NoDup_app. repeat split; [done| |apply NoDup_singleton].
    intros x Hx Hx'. apply list_elem_of_singleton in Hx'. subst x.
    apply Hd, destroyed_not_alive in Hx. congruence.
  - intros x Hx. rewrite E1 in Hx. apply elem_of_app in Hx as [Hx|Hx].
    + assert (destroyed x (detach r (logCall (Destroy r) w))) as H'
        by (apply destroyed_detach; by apply Hd).
      by destruct x.
    + apply list_elem_of_singleton in Hx. subst x.
      assert (destroyed r (detach r (logCall (Destroy r) w))) as H'
        by (by apply destroyed_after_detach).
      by destruct r.
  - intros id Hid. rewrite E2 in Hid.
    assert (stars (detach r (logCall (Destroy r) w)) !! id = None) as H'
      by (apply stars_detach_None; by apply Hfresh).
    by destruct r.
Qed.

(** The writes that touch neither the scene membership nor the record of
    destroy events. *)
Ltac wf_frame :=
  let Hd := fresh "Hd" in
  intros (? & Hd & ?); repeat split; try done;
  try (let r := fresh "r" in let Hr := fresh "Hr" in
       intros r Hr; by destruct r; apply (Hd _ Hr)).

Lemma wf_setPlayer p w : wf w → wf (setPlayer p w).
Proof. wf_frame. Qed.

Lemma wf_setOpacity o w : wf w → wf (setOpacity o w).
Proof. wf_frame. Qed.

Lemma wf_setTimers ts w : wf w → wf (setTimers ts w).
Proof. wf_frame. Qed.

Lemma wf_setClock n w : wf w → wf (setClock n w).
Proof. wf_frame. Qed.

Lemma wf_logCall c w : wf w → wf (logCall c w).
Proof. wf_frame. Qed.


Lemma wf_addStar s w : wf w → wf (addStar s w).
Proof.
  intros (? & Hd & Hfresh). repeat split; try done.
  - intros r Hr. specialize (Hd _ Hr). destruct r as [|j|j]; simpl in *; try done.
    destruct Hd as (s' & Hs & Hx). exists s'. split; [|done].
    rewrite lookup_insert_ne; [done|]. intros Heq. subst j.
    specialize (Hfresh (nextId w) (le_n _)). congruence.
  - intros id Hid. simpl in *. rewrite lookup_insert_ne by lia.
    apply Hfresh. lia.
Qed.

Lemma wf_birdOffscreen id w : wf w → wf (birdOffscreen id w).
Proof.
  intros Hw. destruct (birdOffscreen_shape id w) as [->|[Ha ->]]; [done|].
  pose proof (wf_destroy (REnemy id) w Hw) as Hd.
  unfold destroy in Hd. rewrite Ha in Hd.
  destruct Hd as (H1 & H2 & H3). split; [exact H1|split; [exact H2|exact H3]].
Qed.

Create HintDb wfdb.
Hint Resolve wf_destroy wf_birdOffscreen wf_setPlayer wf_setOpacity wf_setTimers
  wf_setClock wf_logCall wf_addStar : wfdb.





End DestroyFacts.

(** The events that bring two projectiles and a guy together: both flames
    of the sample level are swallowed and shot back in turn (projectiles 3
    and 4), and the first projectile reaches the guy (object 2). *)
Definition firstStarHit : list Entities.Event :=
  [Entities.KeyDown "z"; Entities.EnemyCollideZone 0;
   Entities.PlayerCollideEnemy 0; Entities.KeyRelease "z";
   Entities.KeyDown "z"; Entities.EnemyCollideZone 1;
   Entities.PlayerCollideEnemy 1; Entities.KeyRelease "z";
   Entities.EnemyCollideStar 2 3].


Lemma sampleWorld_wf : wf sampleWorld.
Proof.
  repeat split.
  - apply NoDup_nil_2.
  - intros r Hr. by apply elem_of_nil in Hr.
Qed.


(** The sample level, run: the second projectile reaches the guy in the
    tick in which the first one destroyed it.  The guy has one destroy
    event, each projectile has one, and the second contact changes nothing
    of the enemies. *)
Lemma two_projectiles_on_the_sample_guy :
  let w1 := Entities.run 60 firstStarHit sampleWorld in
  let w2 := Entities.step 60 w1 (Entities.EnemyCollideStar 2 4) in
  Entities.destroyEvents w1
  = [Engine.REnemy 0; Engine.REnemy 1; Engine.REnemy 2; Engine.RStar 3]
  ∧ Entities.destroyEvents w2
    = [Engine.REnemy 0; Engine.REnemy 1; Engine.REnemy 2; Engine.RStar 3;
       Engine.RStar 4]
  ∧ Entities.enemies w2 = Entities.enemies w1.
Proof. vm_compute. done. Qed.

(* --------------------------------------------------------------------- *)
(** *** Replaying a scene *)
(* --------------------------------------------------------------------- *)

(** An enemy with the speed of its [k.move] component forgotten, and a
    world with the speeds of all its enemies forgotten. *)
Definition eraseSpeed (e : Entities.Enemy) : Entities.Enemy :=
  Entities.mkEnemy (Entities.kind e) (Entities.epos e) (Entities.isInhalable e)
    ((λ c : Engine.Dir * Z, (fst c, 0%Z)) <$> Entities.moveComp e)
    (Entities.eexists e) (Entities.mob e).

Definition eraseW (w : Entities.World) : Entities.World :=
  Entities.setEnemies (eraseSpeed <$> Entities.enemies w) w.

Section ReplayFacts.
Import Engine Entities Main.
Variable tps : nat.

Lemma alter_erase (f : Enemy → Enemy) id (m : gmap nat Enemy) :
  (∀ e, eraseSpeed (f e) = f (eraseSpeed e)) →
  alter f id (eraseSpeed <$> m) = eraseSpeed <$> alter f id m.
Proof. intros Hf. symmetry. apply fmap_alter. intros x _. apply Hf. Qed.

Lemma alive_erase r w : alive r (eraseW w) = alive r w.
Proof.
  destruct r; simpl; try done.
  rewrite lookup_fmap. by destruct (enemies w !! id).
Qed.

Lemma destroy_erase r w : destroy r (eraseW w) = eraseW (destroy r w).
Proof.
  unfold destroy. rewrite alive_erase. destruct (alive r w); [|done].
  destruct r; simpl; try done.
  unfold eraseW, logDestroyEvent, setEnemies. simpl.
  by rewrite alter_erase.
Qed.

Lemma birdOffscreen_erase id w :
  birdOffscreen id (eraseW w) = eraseW (birdOffscreen id w).
Proof.
  unfold birdOffscreen. simpl. rewrite lookup_fmap.
  destruct (enemies w !! id) as [[k ? ? ? x ?]|]; simpl; [|done].
  destruct k; [done|done|]. destruct x; [|done].
  unfold eraseW, logDestroyEvent, setEnemies. simpl.
  by rewrite alter_erase.
Qed.

Lemma alterEnemy_erase f id w :
  (∀ e, eraseSpeed (f e) = f (eraseSpeed e)) →
  alterEnemy f id (eraseW w) = eraseW (alterEnemy f id w).
Proof.
  intros Hf. unfold alterEnemy, eraseW, setEnemies. simpl.
  by rewrite alter_erase.
Qed.

Lemma foldl_runPCont_erase ts w :
  foldl (λ acc t, runPCont (cont t) acc) (eraseW w) ts
  = eraseW (foldl (λ acc t, runPCont (cont t) acc) w ts).
Proof.
  revert w. induction ts as [|[d [a]] ts IH]; intros w; [done|].
  simpl. by rewrite <- IH.
Qed.

(** No handler reads the speed of a bird: forgetting the speeds before
    or after an event gives the same world. *)
Lemma step_erase w e : step tps (eraseW w) e = eraseW (step tps w e).
Proof.
  destruct e; simpl; try done.
  - unfold onKeyDown.
    destruct (String.eqb key "left"); [done|].
    destruct (String.eqb key "right"); [done|].
    destruct (String.eqb key "z"); [|done].
    simpl. by destruct (isFull (player w)).
  - unfold onKeyPress. by destruct (String.eqb key "x").
  - unfold onKeyRelease.
    destruct (String.eqb key "z"); [|done].
    simpl. by destruct (isFull (player w)).
  - unfold onCollideEnemy. simpl. rewrite lookup_fmap.
    destruct (enemies w !! id) as [en|]; simpl; [|done].
    destruct (isInhaling (player w) && truthy (isInhalable en)).
    + change (setPlayer (setIsInhaling false (player w)) (eraseW w))
        with (eraseW (setPlayer (setIsInhaling false (player w)) w)).
      rewrite destroy_erase. done.
    + destruct (hp (player w) =? 0)%Z; [|done].
      rewrite destroy_erase. done.
  - unfold playerOnUpdate. simpl. by destruct (2000 <? snd (pos (player w)))%Z.
  - by apply alterEnemy_erase.
  - by apply alterEnemy_erase.
  - unfold onCollideShootingStar. by rewrite !destroy_erase.
  - unfold enemyOnUpdate. simpl. rewrite lookup_fmap.
    destruct (enemies w !! id) as [en|]; simpl; [|done].
    destruct (isInhaling (player w) && truthy (isInhalable en)); [|done].
    by destruct (String.eqb (direction (player w)) "right").
  - apply birdOffscreen_erase.
  - apply alterEnemy_erase. intros [k ? ? ? ? ?]. by destruct k.
  - unfold starOnCollidePlatform. apply destroy_erase.
  - unfold tick. simpl. by rewrite <- foldl_runPCont_erase.
Qed.

Lemma makeBirdEnemy_erase x y v w :
  eraseW (makeBirdEnemy x y v w) = makeBirdEnemy x y 0 (eraseW w).
Proof.
  unfold makeBirdEnemy, addEnemy, eraseW, setNextId, setEnemies. simpl.
  by rewrite fmap_insert.
Qed.

Lemma stepR_erase w1 w2 i w1' w2' :
  eraseW w1 = eraseW w2 →
  stepR tps w1 i w1' → stepR tps w2 i w2' → eraseW w1' = eraseW w2'.
Proof.
  intros He H1 H2. inversion H1; subst; inversion H2; subst.
  - by rewrite <- !step_erase, He.
  - by rewrite !makeBirdEnemy_erase, He.
Qed.

Lemma runR_erase ins : ∀ w1 w2 w1' w2',
  eraseW w1 = eraseW w2 →
  runR tps w1 ins w1' → runR tps w2 ins w2' → eraseW w1' = eraseW w2'.
Proof.
  induction ins as [|i ins IH]; intros w1 w2 w1' w2' He H1 H2.
  - inversion H1; subst. by inversion H2; subst.
  - inversion H1 as [|? ? wa ? ? Hs1 Hr1]; subst.
    inversion H2 as [|? ? wb ? ? Hs2 Hr2]; subst.
    apply (IH wa wb); [|done|done].
    by apply (stepR_erase w1 w2 i).
Qed.

(** A run picks its draws, and the draws fix the run. *)
Lemma runR_runD ins : ∀ w w',
  runR tps w ins w' →
  ∃ draws, Forall (λ r, (0 <= r)%Q ∧ (r < 1)%Q) draws
           ∧ runD tps w ins draws = Some w'.
Proof.
  induction ins as [|i ins IH]; intros w w' H.
  - inversion H; subst. by exists [].
  - inversion H as [|? ? wa ? ? Hs Hr]; subst.
    destruct (IH _ _ Hr) as (draws & Hf & Hd).
    inversion Hs as [|? x y r v H0 H1 Hp]; subst.
    + by exists draws.
    + exists (r :: draws). split; [by constructor|]. simpl. by rewrite Hp.
Qed.

Lemma runD_runR ins : ∀ w draws w',
  Forall (λ r, (0 <= r)%Q ∧ (r < 1)%Q) draws →
  runD tps w ins draws = Some w' → runR tps w ins w'.
Proof.
  induction ins as [|i ins IH]; intros w draws w' Hf Hd.
  - simpl in Hd. injection Hd as <-. constructor.
  - destruct i as [e|x y]; simpl in Hd.
    + econstructor; [constructor|]. by apply (IH _ draws).
    + destruct draws as [|r draws]; [done|].
      destruct (pickSpeed r) as [v|] eqn:Hp; [|done].
      inversion Hf as [|? ? [H0 H1] Hf']; subst.
      econstructor; [by apply (stepR_bird tps w x y r v)|].
      by apply (IH _ draws).
Qed.
End ReplayFacts.

(** C9, as the code has it: the speed of each bird is drawn from
    [Math.random()], which is no part of the world or of the inputs.  Two
    replays of the same inputs from the same world therefore agree on
    everything except the speeds of the birds spawned on the way: the same
    player, projectiles, timers and calls, the same enemies with the same
    positions at spawn, flags and state machines, hence the same number of
    entities.  The final world is a function of the initial world, the
    inputs and the draws taken together. *)
Theorem replay_agrees_up_to_bird_speeds (tps : nat) (w : Entities.World)
    (ins : list Main.Input) :
  (∀ w1 w2, Main.runR tps w ins w1 → Main.runR tps w ins w2 →
     eraseW w1 = eraseW w2
     ∧ size (Entities.enemies w1) = size (Entities.enemies w2)
     ∧ Entities.player w1 = Entities.player w2
     ∧ Entities.stars w1 = Entities.stars w2)
  ∧ (∀ w', Main.runR tps w ins w' ↔
       ∃ draws, Forall (λ r, (0 <= r)%Q ∧ (r < 1)%Q) draws
                ∧ Main.runD tps w ins draws = Some w').
Proof.
  split.
  - intros w1 w2 H1 H2.
    assert (eraseW w1 = eraseW w2) as He by (by apply (runR_erase tps ins w w)).
    repeat apply conj; [done| | |].
    + apply (f_equal (λ x, size (Entities.enemies x))) in He. simpl in He.
      by rewrite !map_size_fmap in He.
    + by apply (f_equal Entities.player) in He.
    + by apply (f_equal Entities.stars) in He.
  - intros w'. split.
    + apply runR_runD.
    + intros (draws & Hf & Hd). by apply (runD_runR tps ins w draws).
Qed.

Lemma replay_agrees_up_to_bird_speeds_witness :
  size (Entities.enemies (Entities.makeBirdEnemy 90 5 100 sampleWorld))
  = size (Entities.enemies (Entities.makeBirdEnemy 90 5 200 sampleWorld)).
Proof.
  refine (proj1 (proj2 (proj1
    (replay_agrees_up_to_bird_speeds 60 sampleWorld [Main.BirdLoop 90 5]) _ _ _ _))).
  - eapply Main.runR_cons; [|apply Main.runR_nil].
    apply (Main.stepR_bird 60 sampleWorld 90 5 0 100); [done|done|reflexivity].
  - eapply Main.runR_cons; [|apply Main.runR_nil].
    apply (Main.stepR_bird 60 sampleWorld 90 5 (1 # 2) 200); [done|done|reflexivity].
Defined.

(** C9, counterexample: the same world, the same single firing of the bird
    loop, and two final worlds that differ, one with a bird at speed 100
    (draw 0) and one with a bird at speed 200 (draw 1/2). *)
Lemma replay_differs_in_bird_speed :
  ∃ w1 w2,
    Main.runR 60 sampleWorld [Main.BirdLoop 90 5] w1
    ∧ Main.runR 60 sampleWorld [Main.BirdLoop 90 5] w2
    ∧ w1 ≠ w2.
Proof.
  exists (Entities.makeBirdEnemy 90 5 100 sampleWorld),
         (Entities.makeBirdEnemy 90 5 200 sampleWorld).
  repeat apply conj.
  - eapply Main.runR_cons; [|apply Main.runR_nil].
    apply (Main.stepR_bird 60 sampleWorld 90 5 0 100); [done|done|reflexivity].
  - eapply Main.runR_cons; [|apply Main.runR_nil].
    apply (Main.stepR_bird 60 sampleWorld 90 5 (1 # 2) 200); [done|done|reflexivity].
  - intros H.
    apply (f_equal (λ x, Entities.moveComp <$> Entities.enemies x !! 3)) in H.
    vm_compute in H. discriminate H.
Qed.

(* ===================================================================== *)
(** ** Further properties of the sources *)
(* ===================================================================== *)

(* --------------------------------------------------------------------- *)
(** *** state.ts: what a sequence of setter calls leaves behind *)
(* --------------------------------------------------------------------- *)

(** The names passed to [setCurrentScene], and to [setNextScene], in a
    sequence of calls. *)
Definition currentArgs (cs : list State.Setter) : list string :=
  omap (λ c, match c with State.SetCurrentScene s => Some s | _ => None end) cs.

Definition nextArgs (cs : list State.Setter) : list string :=
  omap (λ c, match c with State.SetNextScene s => Some s | _ => None end) cs.

(** The last listed name among [names], or [init] if there is none. *)
Definition lastListed (scenes : list string) (init : string) (names : list string) : string :=
  default init (last (List.filter (includes scenes) names)).

Section SetterFacts.
Import State.

Lemma calls_snoc cs c st : calls (cs ++ [c]) st = call (calls cs st) c.
Proof. unfold calls. by rewrite foldl_app. Qed.

Lemma scenes_calls cs st : scenes (calls cs st) = scenes st.
Proof.
  induction cs as [|c cs IH] using rev_ind; [done|].
  rewrite calls_snoc.
  destruct c as [s|s]; simpl; unfold setCurrentScene, setNextScene;
    by destruct (includes (scenes (calls cs st)) s).
Qed.

Lemma lastListed_snoc_listed scenes init names s :
  includes scenes s = true → lastListed scenes init (names ++ [s]) = s.
Proof.
  intros H. unfold lastListed. rewrite List.filter_app. simpl. rewrite H.
  by rewrite last_snoc.
Qed.

Lemma lastListed_snoc_unlisted scenes init names s :
  includes scenes s = false →
  lastListed scenes init (names ++ [s]) = lastListed scenes init names.
Proof.
  intros H. unfold lastListed. rewrite List.filter_app. simpl. rewrite H.
  by rewrite app_nil_r.
Qed.
End SetterFacts.

(** X1: after any sequence of setter calls on any state object, the
    current scene is the last listed name that was passed to
    [setCurrentScene] (the one it had, if none was listed), the next scene
    is the last listed name passed to [setNextScene], and the scene list is
    untouched: the two fields never influence each other. *)
Theorem last_listed_name_wins (cs : list State.Setter) (st : State.GameState) :
  State.currentScene (State.calls cs st)
  = lastListed (State.scenes st) (State.currentScene st) (currentArgs cs)
  ∧ State.nextScene (State.calls cs st)
    = lastListed (State.scenes st) (State.nextScene st) (nextArgs cs)
  ∧ State.scenes (State.calls cs st) = State.scenes st.
Proof.
  induction cs as [|c cs (IHc & IHn & IHs)] using rev_ind; [done|].
  rewrite calls_snoc. unfold currentArgs, nextArgs. rewrite !omap_app.
  fold (currentArgs cs) (nextArgs cs).
  destruct c as [s|s]; simpl; unfold State.setCurrentScene, State.setNextScene;
    rewrite IHs; destruct (includes (State.scenes st) s) eqn:E; simpl;
    rewrite ?app_nil_r, ?IHc, ?IHn, ?IHs;
    rewrite ?(lastListed_snoc_listed _ _ _ _ E), ?(lastListed_snoc_unlisted _ _ _ _ E);
    done.
Qed.

(* --------------------------------------------------------------------- *)
(** *** utils.ts: makeMap *)
(* --------------------------------------------------------------------- *)

(** The objects of all layers of a given name, in map order. *)
Definition objectsOf (name : string) (layers : list Utils.Layer) : list Utils.TiledObject :=
  concat (Utils.objects <$> List.filter (λ l, String.eqb (Utils.lname l) name) layers).

(** The points of the objects called [k], in order. *)
Definition pointsNamed (k : string) (objs : list Utils.TiledObject) : list (Z * Z) :=
  (λ o, (Utils.ox o, Utils.oy o)) <$> List.filter (λ o, String.eqb (Utils.oname o) k) objs.

(** A spawn group exists only once it has a point. *)
Definition group (l : list (Z * Z)) : option (list (Z * Z)) :=
  match l with [] => None | _ => Some l end.

Section MakeMapFacts.
Import Utils.

Lemma group_app_snoc l p : group (l ++ [p]) = Some (l ++ [p]).
Proof. by destruct l. Qed.

Lemma pointsNamed_app k a b : pointsNamed k (a ++ b) = pointsNamed k a ++ pointsNamed k b.
Proof. unfold pointsNamed. by rewrite List.filter_app, fmap_app. Qed.

Lemma objectsOf_cons name l layers :
  objectsOf name (l :: layers)
  = (if String.eqb (lname l) name then objects l else []) ++ objectsOf name layers.
Proof. unfold objectsOf. simpl. by destruct (String.eqb (lname l) name). Qed.

(** One spawn point more: its own group grows at the end, the others stay. *)
Lemma addSpawnPoint_lookup sp o sp' pts k :
  addSpawnPoint sp o = Some sp' →
  sp !! k = group pts →
  sp' !! k = group (pts ++ pointsNamed k [o]).
Proof.
  unfold addSpawnPoint. destruct (includes objectPrototype (oname o)); [done|].
  intros Ha Hk. unfold pointsNamed. simpl.
  destruct (String.eqb_spec (oname o) k) as [Heq|Hne]; simpl.
  - subst k. rewrite Hk in Ha. rewrite group_app_snoc.
    destruct pts as [|p pts]; simpl in Ha; injection Ha as <-;
      by rewrite lookup_insert_eq.
  - rewrite app_nil_r, <- Hk.
    destruct (sp !! oname o); injection Ha as <-; by rewrite lookup_insert_ne.
Qed.

Lemma addSpawnPoints_lookup objs : ∀ sp sp' pts k,
  addSpawnPoints sp objs = Some sp' →
  sp !! k = group pts →
  sp' !! k = group (pts ++ pointsNamed k objs).
Proof.
  induction objs as [|o objs IH]; intros sp sp' pts k Ha Hk; simpl in Ha.
  - injection Ha as <-. unfold pointsNamed. simpl. by rewrite app_nil_r.
  - destruct (addSpawnPoint sp o) as [sp1|] eqn:E1; [|done].
    change (o :: objs) with ([o] ++ objs).
    rewrite pointsNamed_app, app_assoc.
    apply (IH sp1); [done|]. by apply (addSpawnPoint_lookup sp o).
Qed.

Lemma addSpawnPoints_None objs : ∀ sp,
  addSpawnPoints sp objs = None ↔
  ∃ o, o ∈ objs ∧ includes objectPrototype (oname o) = true.
Proof.
  induction objs as [|o objs IH]; intros sp; simpl.
  - split; [done|]. intros (o & Ho & _). by apply elem_of_nil in Ho.
  - unfold addSpawnPoint at 1.
    destruct (includes objectPrototype (oname o)) eqn:E.
    + split; [|done]. intros _. exists o. split; [left|done].
    + assert (∀ sp1, addSpawnPoints sp1 objs = None ↔
               ∃ o0, o0 ∈ o :: objs ∧ includes objectPrototype (oname o0) = true) as H.
      { intros sp1. rewrite IH. split.
        - intros (o0 & H0 & H1). exists o0. split; [by right|done].
        - intros (o0 & H0 & H1). apply elem_of_cons in H0 as [->|H0]; [congruence|].
          by exists o0. }
      destruct (sp !! oname o); apply H.
Qed.

Lemma processLayers_spec layers : ∀ m m' pts k,
  processLayers m layers = Some m' →
  spawnPoints m !! k = group pts →
  spawnPoints m' !! k = group (pts ++ pointsNamed k (objectsOf "spawnpoints" layers))
  ∧ children m' = children m ++ (colliderChild <$> objectsOf "colliders" layers).
Proof.
  induction layers as [|l layers IH]; intros m m' pts k Hp Hk; simpl in Hp.
  - injection Hp as <-. unfold objectsOf, pointsNamed. simpl. by rewrite !app_nil_r.
  - rewrite !objectsOf_cons. unfold processLayer in Hp.
    destruct (String.eqb_spec (lname l) "colliders") as [Hc|Hc].
    + rewrite Hc. simpl.
      destruct (IH _ m' pts k Hp Hk) as (H1 & H2). split; [done|].
      rewrite H2. simpl. by rewrite fmap_app, app_assoc.
    + destruct (String.eqb_spec (lname l) "spawnpoints") as [Hs|Hs].
      * destruct (addSpawnPoints (spawnPoints m) (objects l)) as [sp|] eqn:Ea; [|done].
        destruct (IH _ m' (pts ++ pointsNamed k (objects l)) k Hp) as (H1 & H2).
        { simpl. by apply (addSpawnPoints_lookup (objects l) (spawnPoints m)). }
        split; [|done]. by rewrite pointsNamed_app, app_assoc.
      * by apply IH.
Qed.

Lemma processLayers_None layers : ∀ m,
  processLayers m layers = None ↔
  ∃ o, o ∈ objectsOf "spawnpoints" layers ∧ includes objectPrototype (oname o) = true.
Proof.
  induction layers as [|l layers IH]; intros m; simpl.
  - split; [done|]. intros (o & Ho & _). by apply elem_of_nil in Ho.
  - rewrite objectsOf_cons. unfold processLayer.
    destruct (String.eqb_spec (lname l) "colliders") as [Hc|Hc].
    + rewrite Hc. simpl. apply IH.
    + destruct (String.eqb_spec (lname l) "spawnpoints") as [Hs|Hs]; [|apply IH].
      destruct (addSpawnPoints (spawnPoints m) (objects l)) as [sp|] eqn:Ea.
      * rewrite IH. split.
        -- intros (o & Ho & Hn). exists o. split; [|done].
           apply elem_of_app. by right.
        -- intros (o & Ho & Hn). apply elem_of_app in Ho as [Ho|Ho]; [|by exists o].
           assert (addSpawnPoints (spawnPoints m) (objects l) = None) as Hx
             by (apply addSpawnPoints_None; by exists o).
           congruence.
      * split; [|done]. intros _.
        apply addSpawnPoints_None in Ea as (o & Ho & Hn).
        exists o. split; [|done]. apply elem_of_app. by left.
Qed.
End MakeMapFacts.

(** X2: when [makeMap] returns, the spawn points it returns under a name
    are exactly the positions of the objects of that name in the spawn
    point layers, in map order, and a name without such an object has no
    entry at all (it reads as [undefined], not as an empty array). *)
Theorem makeMap_groups_spawn_points_by_name (layers : list Utils.Layer)
    (m : Utils.Map) (k : string) :
  Utils.makeMap layers = Some m →
  Utils.spawnPoints m !! k = group (pointsNamed k (objectsOf "spawnpoints" layers)).
Proof.
  intros H. by destruct (processLayers_spec layers _ m [] k H (lookup_empty k)) as (H1 & _).
Qed.

(** X3: when [makeMap] returns, the map has one child per object of the
    collider layers, in map order; a child is tagged [exit] and has no
    body exactly when its object is called [exit], and is otherwise a
    [platform] with a body; no other layer adds a child. *)
Theorem makeMap_children_are_the_colliders (layers : list Utils.Layer) (m : Utils.Map) :
  Utils.makeMap layers = Some m →
  Utils.children m = Utils.colliderChild <$> objectsOf "colliders" layers
  ∧ (∀ c, c ∈ Utils.children m →
       (Utils.tag c = "exit" ∧ Utils.body c = false)
       ∨ (Utils.tag c = "platform" ∧ Utils.body c = true)).
Proof.
  intros H.
  destruct (processLayers_spec layers _ m [] "" H (lookup_empty "")) as (_ & H2).
  simpl in H2. split; [done|].
  intros c Hc. rewrite H2 in Hc. apply list_elem_of_fmap in Hc as (o & -> & _).
  unfold Utils.colliderChild. simpl.
  destruct (String.eqb (Utils.oname o) "exit"); [by left|by right].
Qed.

(** X4: [makeMap] throws exactly when some object of a spawn point layer
    carries the name of a property that every JavaScript object inherits
    (such as [constructor] or [toString]): the lookup finds the inherited
    value and [push] is called on it.  Whatever the collider layers hold,
    they never make it throw. *)
Theorem makeMap_throws_on_inherited_name (layers : list Utils.Layer) :
  Utils.makeMap layers = None ↔
  ∃ o, o ∈ objectsOf "spawnpoints" layers ∧ Utils.oname o ∈ Utils.objectPrototype.
Proof.
  unfold Utils.makeMap. rewrite processLayers_None.
  split; intros (o & Ho & Hn); exists o; (split; [done|]); by apply includes_elem_of.
Qed.

(** A map with a collider layer (two platforms and the exit), an image
    layer and the spawn points of [sampleSpawns]. *)
Definition sampleLayers : list Utils.Layer :=
  [Utils.mkLayer "colliders"
     [Utils.mkObject "" 0 100 400 16; Utils.mkObject "exit" 380 60 16 40;
      Utils.mkObject "" 100 60 64 8];
   Utils.mkLayer "background" [];
   Utils.mkLayer "spawnpoints"
     [Utils.mkObject "player" 10 20 0 0; Utils.mkObject "flame" 30 20 0 0;
      Utils.mkObject "guy" 40 20 0 0; Utils.mkObject "flame" 50 20 0 0;
      Utils.mkObject "bird" 90 5 0 0]].

Lemma makeMap_groups_spawn_points_by_name_witness :
  ∃ m, Utils.makeMap sampleLayers = Some m
       ∧ Utils.spawnPoints m !! "flame" = Some [(30, 20)%Z; (50, 20)%Z].
Proof.
  eexists. split; [reflexivity|].
  apply (makeMap_groups_spawn_points_by_name sampleLayers _ "flame").
  reflexivity.
Defined.

Lemma makeMap_children_are_the_colliders_witness :
  ∃ m, Utils.makeMap sampleLayers = Some m ∧ length (Utils.children m) = 3.
Proof.
  eexists. split; [reflexivity|].
  rewrite (proj1 (makeMap_children_are_the_colliders sampleLayers _ eq_refl)).
  reflexivity.
Defined.

Lemma makeMap_throws_on_inherited_name_witness :
  Utils.makeMap [Utils.mkLayer "spawnpoints" [Utils.mkObject "toString" 1 2 0 0]] = None.
Proof.
  apply (proj2 (makeMap_throws_on_inherited_name _)).
  exists (Utils.mkObject "toString" 1 2 0 0). split.
  - apply list_elem_of_In. left. reflexivity.
  - apply includes_elem_of. reflexivity.
Defined.

(* --------------------------------------------------------------------- *)
(** *** main.ts: what a level scene builds *)
(* --------------------------------------------------------------------- *)

(** The flame and the guy the factories make at a spawn point. *)
Definition flameAt (tps : nat) (p : Z * Z) : Entities.Enemy :=
  {| Entities.kind := Entities.Flame;
     Entities.epos := (fst p * Entities.scale, snd p * Entities.scale)%Z;
     Entities.isInhalable := None; Entities.moveComp := None;
     Entities.eexists := true;
     Entities.mob := Some (Entities.makeFlameMob tps) |}.

Definition guyAt (tps : nat) (p : Z * Z) : Entities.Enemy :=
  {| Entities.kind := Entities.Guy;
     Entities.epos := (fst p * Entities.scale, snd p * Entities.scale)%Z;
     Entities.isInhalable := Some false; Entities.moveComp := None;
     Entities.eexists := true;
     Entities.mob := Some (Entities.makeGuyMob tps) |}.

(** Enemies made one after the other at the points of a list. *)
Definition spawnAll (mk : Z * Z → Entities.Enemy) (w : Entities.World)
    (l : list (Z * Z)) : Entities.World :=
  foldl (λ acc p, Entities.addEnemy (mk p) acc) w l.

Section LevelFacts.
Import Engine Entities Main.
Variable tps : nat.

Lemma spawn_flames w l :
  foldl (λ acc '(fx, fy), makeFlameEnemy tps fx fy acc) w l = spawnAll (flameAt tps) w l.
Proof.
  revert w. induction l as [|[x y] l IH]; intros w; [done|]. simpl. by rewrite IH.
Qed.

Lemma spawn_guys w l :
  foldl (λ acc '(gx, gy), makeGuyEnemy tps gx gy acc) w l = spawnAll (guyAt tps) w l.
Proof.
  revert w. induction l as [|[x y] l IH]; intros w; [done|]. simpl. by rewrite IH.
Qed.

(** Identifiers from [nextId] on are not in use. *)
Definition freshIds (w : World) : Prop :=
  ∀ id, nextId w ≤ id → enemies w !! id = None.

Lemma spawnAll_spec mk l : ∀ w,
  let w' := spawnAll mk w l in
  nextId w' = nextId w + length l
  ∧ (∀ i p, l !! i = Some p → enemies w' !! (nextId w + i) = Some (mk p))
  ∧ (∀ id, id < nextId w → enemies w' !! id = enemies w !! id)
  ∧ (freshIds w → freshIds w' ∧ size (enemies w') = size (enemies w) + length l)
  ∧ setEnemies (enemies w) (setNextId (nextId w) w') = w.
Proof.
  induction l as [|p l IH]; intros w; simpl.
  - repeat split; try done; try lia. by destruct w.
  - destruct (IH (addEnemy (mk p) w)) as (H1 & H2 & H3 & H4 & H5). simpl in *.
    repeat apply conj.
    + rewrite H1. lia.
    + intros [|i] q Hq; simpl in Hq.
      * injection Hq as ->. rewrite Nat.add_0_r, H3 by lia. apply lookup_insert_eq.
      * replace (nextId w + S i) with (S (nextId w) + i) by lia. by apply H2.
    + intros id Hid. rewrite H3 by lia. apply lookup_insert_ne. lia.
    + intros Hf. destruct H4 as (H4a & H4b).
      { intros id Hid. simpl in *. rewrite lookup_insert_ne by lia. apply Hf. lia. }
      split; [done|]. rewrite H4b, map_size_insert_None; [lia|]. by apply Hf.
    + apply (f_equal (λ x, setEnemies (enemies w) (setNextId (nextId w) x))) in H5.
      destruct w. exact H5.
Qed.

(** Spawning enemies touches nothing but the enemies and the identifiers. *)
Lemma scene_frame {A} (f : World → A) g px py flames guys :
  (∀ m n x, f (setEnemies m (setNextId n x)) = f x) →
  f (scene tps g px py flames guys)
  = f {| player := makePlayer px py; playerExists := true;
         inhaleEffectOpacity := 0; enemies := ∅; stars := ∅;
         nextId := 0; game := g; timers := []; clock := 0;
         calls := []; destroyEvents := [] |}.
Proof.
  intros Hf. unfold scene. rewrite spawn_flames, spawn_guys.
  set (w0 := mkWorld _ _ _ _ _ _ _ _ _ _ _).
  destruct (spawnAll_spec (flameAt tps) flames w0) as (_ & _ & _ & _ & F5).
  set (w1 := spawnAll (flameAt tps) w0 flames) in *.
  destruct (spawnAll_spec (guyAt tps) guys w1) as (_ & _ & _ & _ & G5).
  cbv zeta in *.
  rewrite <- (Hf (enemies w1) (nextId w1)), G5.
  by rewrite <- (Hf (enemies w0) (nextId w0) w1), F5.
Qed.
End LevelFacts.

(** X5: a level scene completes exactly when the player group has a spawn
    point, and it then holds a fresh player (health 3) at four times the
    first player point, one flame per flame point followed by one guy per
    guy point, each at four times its point and in map order, and nothing
    else: no projectile, no pending timer, no engine call yet. *)
Theorem level_builds_the_scene (tps : nat) (current next : string)
    (sp : Main.SpawnPoints) (g : State.GameState) :
  (Main.level tps current next sp g = None ↔ Main.spPlayer sp = [])
  ∧ (∀ w, Main.level tps current next sp g = Some w →
       (∃ x y rest, Main.spPlayer sp = (x, y) :: rest
                    ∧ Entities.player w = Entities.makePlayer x y)
       ∧ Entities.playerExists w = true
       ∧ (∀ i p, Main.spFlame sp !! i = Some p →
            Entities.enemies w !! i = Some (flameAt tps p))
       ∧ (∀ i p, Main.spGuy sp !! i = Some p →
            Entities.enemies w !! (length (Main.spFlame sp) + i) = Some (guyAt tps p))
       ∧ size (Entities.enemies w) = length (Main.spFlame sp) + length (Main.spGuy sp)
       ∧ Entities.stars w = ∅ ∧ Entities.timers w = [] ∧ Entities.calls w = []
       ∧ Entities.game w = State.setNextScene next (State.setCurrentScene current g)).
Proof.
  unfold Main.level. destruct (Main.spPlayer sp) as [|[x y] rest] eqn:Ep.
  - split; [done|]. intros w Hw. discriminate Hw.
  - split; [done|]. intros w Hw. injection Hw as <-.
    unfold Main.scene. rewrite spawn_flames, spawn_guys.
    set (g' := State.setNextScene next (State.setCurrentScene current g)).
    set (w0 := Entities.mkWorld _ _ _ _ _ _ _ _ _ _ _).
    destruct (spawnAll_spec (flameAt tps) (Main.spFlame sp) w0) as (F1 & F2 & F3 & F4 & F5).
    set (w1 := spawnAll (flameAt tps) w0 (Main.spFlame sp)) in *.
    destruct (spawnAll_spec (guyAt tps) (Main.spGuy sp) w1) as (G1 & G2 & G3 & G4 & G5).
    set (w2 := spawnAll (guyAt tps) w1 (Main.spGuy sp)) in *.
    cbv zeta in *. simpl in F1.
    assert (freshIds w0) as Hf0 by (intros id _; apply lookup_empty).
    destruct (F4 Hf0) as (Hf1 & Hs1). destruct (G4 Hf1) as (Hf2 & Hs2).
    assert (∀ {A} (f : Entities.World → A),
              (∀ m n x, f (Entities.setEnemies m (Entities.setNextId n x)) = f x) →
              f w2 = f w0) as Hframe.
    { intros A f Hf. rewrite <- (Hf (Entities.enemies w1) (Entities.nextId w1) w2), G5.
      by rewrite <- (Hf (Entities.enemies w0) (Entities.nextId w0) w1), F5. }
    repeat apply conj.
    + exists x, y, rest. split; [done|]. by apply (Hframe _ Entities.player).
    + by apply (Hframe _ Entities.playerExists).
    + intros i p Hp. rewrite G3.
      * by apply (F2 i p).
      * rewrite F1. by apply lookup_lt_Some in Hp.
    + intros i p Hp. rewrite <- F1. by apply G2.
    + rewrite Hs2, Hs1. simpl. by rewrite map_size_empty.
    + by apply (Hframe _ Entities.stars).
    + by apply (Hframe _ Entities.timers).
    + by apply (Hframe _ Entities.calls).
    + by apply (Hframe _ Entities.game).
Qed.

Lemma level_builds_the_scene_witness :
  size (Entities.enemies sampleWorld) = 2 + 1.
Proof.
  refine (proj1 (proj2 (proj2 (proj2 (proj2
    (proj2 (level_builds_the_scene 60 "level-1" "level-2" sampleSpawns
              State.globalGameState) sampleWorld _)))))).
  reflexivity.
Defined.

(** X6: run on the spawn points of a map, a level scene throws exactly when
    the map has no spawn point called [player], [flame], [guy] or [bird]:
    a missing group is not read as empty. *)
Theorem level_throws_on_missing_group (tps : nat) (current next : string)
    (layers : list Utils.Layer) (m : Utils.Map) (g : State.GameState) :
  Utils.makeMap layers = Some m →
  (Main.levelOfMap tps current next (Utils.spawnPoints m) g = None
   ↔ ∃ k, k ∈ ["player"; "flame"; "guy"; "bird"]
          ∧ pointsNamed k (objectsOf "spawnpoints" layers) = []).
Proof.
  intros Hm.
  assert (∀ k, Utils.spawnPoints m !! k
               = group (pointsNamed k (objectsOf "spawnpoints" layers))) as Hall.
  { intros k. by destruct (processLayers_spec layers _ m [] k Hm (lookup_empty k)). }
  pose proof (Hall "player") as Hp. pose proof (Hall "flame") as Hf.
  pose proof (Hall "guy") as Hg. pose proof (Hall "bird") as Hb. clear Hall.
  unfold Main.levelOfMap, Main.spawnsOfMap. rewrite Hp, Hf, Hg, Hb.
  destruct (pointsNamed "player" _) as [|[x y] ps] eqn:Ep; simpl.
  { split; [|done]. intros _. exists "player". split; [|done]. set_solver. }
  destruct (pointsNamed "flame" _) as [|pf fs] eqn:Ef; simpl.
  { split; [|done]. intros _. exists "flame". split; [|done]. set_solver. }
  destruct (pointsNamed "guy" _) as [|pg gs] eqn:Eg; simpl.
  { split; [|done]. intros _. exists "guy". split; [|done]. set_solver. }
  destruct (pointsNamed "bird" _) as [|pb bs] eqn:Eb; simpl.
  { split; [|done]. intros _. exists "bird". split; [|done]. set_solver. }
  split; [done|]. intros (k & Hk & Hn).
  repeat (apply elem_of_cons in Hk as [->|Hk]; [congruence|]).
  by apply elem_of_nil in Hk.
Qed.

Lemma level_throws_on_missing_group_witness :
  ∃ m, Utils.makeMap [Utils.mkLayer "spawnpoints" [Utils.mkObject "player" 1 2 0 0]] = Some m
       ∧ Main.levelOfMap 60 "level-1" "level-2" (Utils.spawnPoints m)
           State.globalGameState = None.
Proof.
  eexists. split; [reflexivity|].
  apply (proj2 (level_throws_on_missing_group 60 "level-1" "level-2"
                  [Utils.mkLayer "spawnpoints" [Utils.mkObject "player" 1 2 0 0]]
                  _ State.globalGameState eq_refl)).
  exists "flame". split; [|reflexivity].
  apply list_elem_of_In. right. left. reflexivity.
Defined.

(* --------------------------------------------------------------------- *)
(** *** entities.ts: what the handlers keep true of the player *)
(* --------------------------------------------------------------------- *)

(** The damage flickers in a record of engine calls. *)
Definition isFlicker (c : Engine.Call) : bool :=
  match c with Engine.Flicker => true | _ => false end.

Definition flickers (cs : list Engine.Call) : nat :=
  length (List.filter isFlicker cs).

(** A call that, if it is a [k.go], goes to the current or the next scene
    of the state object [g0]. *)
Definition goesTo (g0 : State.GameState) (c : Engine.Call) : Prop :=
  match c with
  | Engine.Go s => s = State.currentScene g0 ∨ s = State.nextScene g0
  | _ => True
  end.

(** The sprite of the player is flipped exactly when it faces left. *)
Definition facing (p : Entities.Player) : Prop :=
  (Entities.direction p = "left" ∧ Entities.flipX p = true)
  ∨ (Entities.direction p = "right" ∧ Entities.flipX p = false).

(** A projectile flies at 800 to one side, its sprite flipped when it flies
    to the right. *)
Definition starOk (s : Entities.Star) : Prop :=
  (Entities.smove s = (Engine.LEFT, 800%Z) ∧ Entities.sflipX s = false)
  ∨ (Entities.smove s = (Engine.RIGHT, 800%Z) ∧ Entities.sflipX s = true).

Definition playerInv (g0 : State.GameState) (w : Entities.World) : Prop :=
  Entities.game w = g0
  ∧ exclusive w
  ∧ (Entities.isInhaling (Entities.player w) = true → Entities.inhaleEffectOpacity w = 1%Z)
  ∧ (Entities.hp (Entities.player w) + Z.of_nat (flickers (Entities.calls w)) = 3
     ∧ 0 ≤ Entities.hp (Entities.player w))%Z
  ∧ facing (Entities.player w)
  ∧ map_Forall (λ _ s, starOk s) (Entities.stars w)
  ∧ Forall (goesTo g0) (Entities.calls w).

Section PlayerInvariant.
Import Engine Entities.
Variable tps : nat.

Lemma flickers_app a b : flickers (a ++ b) = flickers a + flickers b.
Proof. unfold flickers. by rewrite List.filter_app, length_app. Qed.

Lemma flickers_snoc cs c :
  flickers (cs ++ [c]) = flickers cs + (if isFlicker c then 1 else 0).
Proof. rewrite flickers_app. unfold flickers. simpl. by destruct (isFlicker c). Qed.

Lemma stars_destroy_Forall (P : Star → Prop) r w :
  (∀ s, P s → P (setSExists false s)) →
  map_Forall (λ _ s, P s) (stars w) → map_Forall (λ _ s, P s) (stars (destroy r w)).
Proof.
  intros HP Hall. unfold destroy. destruct (alive r w); [|done].
  destruct r as [|id|id]; simpl; try done.
  intros j s Hs. apply lookup_alter_Some in Hs as [(-> & s0 & Hs0 & ->)|(_ & Hs)].
  - apply HP. by apply (Hall j).
  - by apply (Hall j).
Qed.

(** An event that leaves the flags, the health and the facing of the
    player alone, keeps the projectiles as they are up to their being
    destroyed, and only adds harmless calls. *)
Lemma playerInv_transfer g0 w w' cs :
  game w' = game w →
  hp (player w') = hp (player w) →
  isInhaling (player w') = isInhaling (player w) →
  isFull (player w') = isFull (player w) →
  direction (player w') = direction (player w) →
  flipX (player w') = flipX (player w) →
  inhaleEffectOpacity w' = inhaleEffectOpacity w →
  (map_Forall (λ _ s, starOk s) (stars w) → map_Forall (λ _ s, starOk s) (stars w')) →
  calls w' = calls w ++ cs → flickers cs = 0 → Forall (goesTo g0) cs →
  playerInv g0 w → playerInv g0 w'.
Proof.
  intros Eg Eh Ei Ef Ed Ex Eo Es Ec Hfl Hgo (I1 & I2 & I3 & I4 & I5 & I6 & I8).
  unfold playerInv, exclusive, facing in *.
  rewrite Eg, Eh, Ei, Ef, Ed, Ex, Eo, Ec, flickers_app, Hfl.
  repeat apply conj; try done; try lia; try tauto.
  apply Forall_app. by split.
Qed.

Lemma starOk_setSExists s : starOk s → starOk (setSExists false s).
Proof. by intros [H|H]; [left|right]. Qed.

Lemma playerInv_destroy g0 r w : playerInv g0 w → playerInv g0 (destroy r w).
Proof.
  apply (playerInv_transfer g0 w _ [Destroy r]);
    rewrite ?player_destroy, ?game_destroy, ?opacity_destroy, ?calls_destroy;
    try done.
  - apply stars_destroy_Forall. apply starOk_setSExists.
  - by repeat constructor.
Qed.

Lemma playerInv_step g0 w e : playerInv g0 w → playerInv g0 (step tps w e).
Proof.
  intros Hw. pose proof Hw as (I1 & I2 & I3 & (I4 & I4') & I5 & I6 & I8).
  unfold exclusive in I2.
  destruct e; simpl.
  - (* key down *)
    unfold onKeyDown.
    destruct (String.eqb key "left").
    { unfold playerInv, exclusive, facing, move. simpl.
      rewrite flickers_snoc. simpl.
      repeat apply conj; try done; try lia; try tauto.
      apply Forall_app. split; [done|]. by repeat constructor. }
    destruct (String.eqb key "right").
    { unfold playerInv, exclusive, facing, move. simpl.
      rewrite flickers_snoc. simpl.
      repeat apply conj; try done; try lia; try tauto.
      apply Forall_app. split; [done|]. by repeat constructor. }
    destruct (String.eqb key "z"); [|done].
    destruct (isFull (player w)) eqn:Ef.
    + unfold playerInv, exclusive, facing. simpl. rewrite Ef.
      specialize (I2 eq_refl). rewrite I2.
      repeat apply conj; try done.
    + unfold playerInv, exclusive, facing. simpl. rewrite Ef.
      repeat apply conj; try done.
  - (* key press *)
    unfold onKeyPress. destruct (String.eqb key "x"); [|done].
    apply (playerInv_transfer g0 w _ [DoubleJump]); try done. by repeat constructor.
  - (* key release *)
    unfold onKeyRelease. destruct (String.eqb key "z"); [|done].
    destruct (isFull (player w)) eqn:Ef.
    + unfold playerInv, exclusive, facing. simpl.
      specialize (I2 eq_refl). rewrite I2.
      repeat apply conj; try done.
      apply map_Forall_insert_2; [|done]. unfold starOk, shootingStar. simpl.
      destruct I5 as [(Hd & _)|(Hd & _)]; rewrite Hd; [by left|by right].
    + unfold playerInv, exclusive, facing. simpl. rewrite Ef.
      repeat apply conj; try done.
  - (* contact with an enemy *)
    unfold onCollideEnemy.
    destruct (enemies w !! id) as [en|]; [|done].
    destruct (isInhaling (player w) && truthy (isInhalable en)) eqn:Ec.
    + apply andb_prop in Ec as (Ei & _).
      assert (isFull (player w) = false) as Ef.
      { destruct (isFull (player w)) eqn:E; [|done]. specialize (I2 eq_refl). congruence. }
      unfold playerInv, exclusive, facing. simpl.
      rewrite !player_destroy, game_destroy, opacity_destroy,
        calls_destroy, flickers_snoc.
      simpl.
      repeat apply conj; try done; try lia.
      * apply stars_destroy_Forall; [apply starOk_setSExists|done].
      * apply Forall_app. split; [done|]. by repeat constructor.
    + destruct (Z.eqb_spec (hp (player w)) 0) as [Hz|Hz].
      * unfold go.
        apply (playerInv_transfer g0 w _ [Destroy RPlayer; Go (State.currentScene (game w))]);
          simpl; rewrite ?player_destroy, ?game_destroy, ?opacity_destroy,
            ?calls_destroy, <- ?app_assoc; try done.
        -- apply stars_destroy_Forall. apply starOk_setSExists.
        -- repeat apply Forall_cons_2; simpl; rewrite ?I1; auto.
      * unfold playerInv, exclusive, facing, hurt. simpl.
        rewrite flickers_snoc. simpl.
        repeat apply conj; try done; try lia.
        apply Forall_app. split; [done|]. by repeat constructor.
  - (* the exit *)
    unfold onCollideExit, go.
    apply (playerInv_transfer g0 w _ [Go (State.nextScene (game w))]); try done.
    repeat apply Forall_cons_2; simpl; rewrite ?I1; auto.
  - (* the fall check *)
    unfold playerOnUpdate, go.
    destruct (2000 <? snd (pos (player w)))%Z; [|done].
    apply (playerInv_transfer g0 w _ [Go (State.currentScene (game w))]); try done.
    repeat apply Forall_cons_2; simpl; rewrite ?I1; auto.
  - (* physics moved the player *)
    apply (playerInv_transfer g0 w _ []); try done. simpl. by rewrite app_nil_r.
  - apply (playerInv_transfer g0 w _ []); try done. simpl. by rewrite app_nil_r.
  - apply (playerInv_transfer g0 w _ []); try done. simpl. by rewrite app_nil_r.
  - unfold onCollideShootingStar. by do 2 apply playerInv_destroy.
  - (* the pull *)
    unfold enemyOnUpdate, move.
    destruct (enemies w !! id) as [en|]; [|done].
    destruct (isInhaling (player w) && truthy (isInhalable en)); [|done].
    destruct (String.eqb (direction (player w)) "right").
    + apply (playerInv_transfer g0 w _ [Body (REnemy id) (BMove (-800) 0)]); try done.
      by repeat constructor.
    + apply (playerInv_transfer g0 w _ [Body (REnemy id) (BMove 800 0)]); try done.
      by repeat constructor.
  - destruct (birdOffscreen_shape id w) as [->|[_ ->]]; [done|].
    apply (playerInv_transfer g0 w _ []); try done. simpl. by rewrite app_nil_r.
  - apply (playerInv_transfer g0 w _ []); try done. simpl. by rewrite app_nil_r.
  - unfold starOnCollidePlatform. by apply playerInv_destroy.
  - destruct (tick_shape w) as (a & ts & ->).
    apply (playerInv_transfer g0 w _ []); try done. simpl. by rewrite app_nil_r.
Qed.

Lemma playerInv_bird g0 x y v w : playerInv g0 w → playerInv g0 (makeBirdEnemy x y v w).
Proof.
  intros Hw. apply (playerInv_transfer g0 w _ []); try done. simpl. by rewrite app_nil_r.
Qed.

Lemma playerInv_runR g0 ins : ∀ w w',
  playerInv g0 w → Main.runR tps w ins w' → playerInv g0 w'.
Proof.
  induction ins as [|i ins IH]; intros w w' Hw Hr.
  - by inversion Hr; subst.
  - inversion Hr as [|? ? w1 ? ? Hs Hr1]; subst.
    apply (IH w1); [|done].
    inversion Hs; subst; [by apply playerInv_step|by apply playerInv_bird].
Qed.

Lemma playerInv_level current next sp g w :
  Main.level tps current next sp g = Some w →
  playerInv (State.setNextScene next (State.setCurrentScene current g)) w.
Proof.
  unfold Main.level. destruct (Main.spPlayer sp) as [|[x y] rest]; [done|].
  intros Hl. injection Hl as <-.
  unfold playerInv, exclusive, facing.
  rewrite (scene_frame tps player), (scene_frame tps stars), (scene_frame tps calls),
    (scene_frame tps game), (scene_frame tps inhaleEffectOpacity) by done.
  simpl. repeat apply conj; try done. by right.
Qed.
End PlayerInvariant.

(** The worlds a level scene can be driven into: built by the scene
    function of [current] (with [next] to follow) on a state object, then
    driven by engine events and firings of the bird loops. *)
Definition reachable (tps : nat) (current next : string) (g : State.GameState)
    (w : Entities.World) : Prop :=
  ∃ sp w0 ins,
    Main.level tps current next sp g = Some w0 ∧ Main.runR tps w0 ins w.

Lemma reachable_inv tps current next g w :
  reachable tps current next g w →
  playerInv (State.setNextScene next (State.setCurrentScene current g)) w.
Proof.
  intros (sp & w0 & ins & Hl & Hr).
  apply (playerInv_runR tps _ ins w0); [|done]. by apply (playerInv_level tps _ _ sp).
Qed.

Lemma sample_reachable :
  reachable 60 "level-1" "level-2" State.globalGameState
    (Entities.step 60 sampleWorld (Entities.KeyDown "z")).
Proof.
  exists sampleSpawns, sampleWorld, [Main.Ev (Entities.KeyDown "z")].
  split; [reflexivity|].
  eapply Main.runR_cons; [apply Main.stepR_ev|apply Main.runR_nil].
Defined.

(** X8: in every world a level can be driven into, the player is never
    Full and Inhaling at once, and whenever it is Inhaling the inhale
    effect is shown. *)
Theorem inhaling_shows_the_effect (tps : nat) (current next : string)
    (g : State.GameState) (w : Entities.World) :
  reachable tps current next g w →
  (Entities.isFull (Entities.player w) = true →
   Entities.isInhaling (Entities.player w) = false)
  ∧ (Entities.isInhaling (Entities.player w) = true →
     Entities.inhaleEffectOpacity w = 1%Z).
Proof.
  intros Hr. by destruct (reachable_inv _ _ _ _ _ Hr) as (_ & H2 & H3 & _).
Qed.

Lemma inhaling_shows_the_effect_witness :
  Entities.inhaleEffectOpacity (Entities.step 60 sampleWorld (Entities.KeyDown "z")) = 1%Z.
Proof.
  apply (proj2 (inhaling_shows_the_effect 60 "level-1" "level-2" State.globalGameState
                  _ sample_reachable)).
  reflexivity.
Defined.

(** X9: in every world a level can be driven into, the health of the
    player is 3 less the number of damage flickers played so far and is
    never negative: a hit always costs exactly one point, nothing ever
    gives a point back, and at most three hits are ever taken. *)
Theorem health_counts_the_hits (tps : nat) (current next : string)
    (g : State.GameState) (w : Entities.World) :
  reachable tps current next g w →
  (Entities.hp (Entities.player w)
   = 3 - Z.of_nat (flickers (Entities.calls w)))%Z
  ∧ (0 ≤ Entities.hp (Entities.player w))%Z
  ∧ flickers (Entities.calls w) ≤ 3.
Proof.
  intros Hr. destruct (reachable_inv _ _ _ _ _ Hr) as (_ & _ & _ & (H4 & H4') & _).
  repeat split; lia.
Qed.

Lemma health_counts_the_hits_witness :
  (0 ≤ Entities.hp (Entities.player (Entities.step 60 sampleWorld (Entities.KeyDown "z"))))%Z.
Proof.
  exact (proj1 (proj2 (health_counts_the_hits 60 "level-1" "level-2"
                         State.globalGameState _ sample_reachable))).
Defined.

(** X10: in every world a level can be driven into, the player faces left
    or right and its sprite is flipped exactly when it faces left; and
    every projectile flies at 800 to the left or to the right, its sprite
    flipped exactly when it flies to the right. *)
Theorem facing_and_projectiles_are_sided (tps : nat) (current next : string)
    (g : State.GameState) (w : Entities.World) :
  reachable tps current next g w →
  facing (Entities.player w)
  ∧ (∀ id s, Entities.stars w !! id = Some s → starOk s).
Proof.
  intros Hr. destruct (reachable_inv _ _ _ _ _ Hr) as (_ & _ & _ & _ & H5 & H6 & _).
  split; [done|]. intros id s Hs. by apply (H6 id).
Qed.

Lemma facing_and_projectiles_are_sided_witness :
  facing (Entities.player (Entities.step 60 sampleWorld (Entities.KeyDown "z"))).
Proof.
  exact (proj1 (facing_and_projectiles_are_sided 60 "level-1" "level-2"
                  State.globalGameState _ sample_reachable)).
Defined.

Section ShotFacts.
Import Engine Entities.
Variable tps : nat.

Lemma stars_destroy_None r w sid :
  stars w !! sid = None → stars (destroy r w) !! sid = None.
Proof.
  intros Hn. unfold destroy. destruct (alive r w); [|done].
  destruct r; simpl; try done. by apply lookup_alter_None.
Qed.

(** The events that leave the projectiles and the Full flag as they are. *)
Lemma step_keeps_shots w e :
  (∀ key, e ≠ KeyRelease key) → (∀ id, e ≠ PlayerCollideEnemy id) →
  isFull (player (step tps w e)) = isFull (player w)
  ∧ ∀ sid, stars w !! sid = None → stars (step tps w e) !! sid = None.
Proof.
  intros Hr Hc. destruct e; simpl; try done.
  - unfold onKeyDown.
    destruct (String.eqb key "left"); [done|].
    destruct (String.eqb key "right"); [done|].
    destruct (String.eqb key "z"); [|done].
    destruct (isFull (player w)) eqn:Ef; simpl; by rewrite Ef.
  - unfold onKeyPress. by destruct (String.eqb key "x").
  - by destruct (Hr key).
  - by destruct (Hc id).
  - unfold playerOnUpdate. by destruct (2000 <? snd (pos (player w)))%Z.
  - unfold onCollideShootingStar. rewrite !player_destroy. split; [done|].
    intros s Hn. by do 2 apply stars_destroy_None.
  - unfold enemyOnUpdate.
    destruct (enemies w !! id) as [en|]; [|done].
    destruct (isInhaling (player w) && truthy (isInhalable en)); [|done].
    by destruct (String.eqb (direction (player w)) "right").
  - by destruct (birdOffscreen_shape id w) as [->|[_ ->]].
  - unfold starOnCollidePlatform. rewrite player_destroy. split; [done|].
    intros s Hn. by apply stars_destroy_None.
  - by destruct (tick_shape w) as (a & ts & ->).
Qed.
End ShotFacts.

(** X11: the player shoots only what it has swallowed.  An event makes a
    player that was not Full Full only if it is the contact with an enemy
    whose flag is set while the player is Inhaling, and that enemy is out of
    the scene afterwards.  An event adds a projectile to the scene only if
    it is the release of the inhale key by a Full player; the projectile is
    the one object added and the player is no longer Full afterwards.  And
    a Full player stops being Full only by such a release. *)
Theorem full_only_by_swallowing (tps : nat) (w : Entities.World) (e : Entities.Event) :
  let w' := Entities.step tps w e in
  (Entities.isFull (Entities.player w) = false →
   Entities.isFull (Entities.player w') = true →
   ∃ id en,
     e = Entities.PlayerCollideEnemy id
     ∧ Entities.enemies w !! id = Some en
     ∧ Entities.isInhaling (Entities.player w) = true
     ∧ Entities.truthy (Entities.isInhalable en) = true
     ∧ Entities.alive (Engine.REnemy id) w' = false)
  ∧ (∀ sid,
       Entities.stars w !! sid = None →
       is_Some (Entities.stars w' !! sid) →
       e = Entities.KeyRelease "z"
       ∧ Entities.isFull (Entities.player w) = true
       ∧ sid = Entities.nextId w
       ∧ Entities.isFull (Entities.player w') = false)
  ∧ (Entities.isFull (Entities.player w) = true →
     Entities.isFull (Entities.player w') = false →
     e = Entities.KeyRelease "z"
     ∧ is_Some (Entities.stars w' !! Entities.nextId w)).
Proof.
  intros w'.
  assert ((∀ key, e ≠ Entities.KeyRelease key) → (∀ id, e ≠ Entities.PlayerCollideEnemy id) →
          Entities.isFull (Entities.player w') = Entities.isFull (Entities.player w)
          ∧ ∀ sid, Entities.stars w !! sid = None → Entities.stars w' !! sid = None) as Hkeep
    by apply step_keeps_shots.
  destruct e as [key|key|key|id| | |q|id|id|id sid|id|id|id g|sid|];
    try (destruct Hkeep as (Hf & Hs); [done|done|];
         repeat apply conj;
         [intros H0 H1; congruence
         |intros s Hn Hsome; rewrite (Hs s Hn) in Hsome; by destruct Hsome
         |intros H0 H1; congruence]).
  - (* release *)
    clear Hkeep. unfold w'. simpl. unfold Entities.onKeyRelease.
    destruct (String.eqb_spec key "z") as [->|Hne].
    + destruct (Entities.isFull (Entities.player w)) eqn:Ef; simpl.
      * repeat apply conj; [done| |].
        -- intros s Hn Hsome. repeat split; try done.
           destruct (decide (s = Entities.nextId w)) as [->|Hs]; [done|].
           rewrite lookup_insert_ne in Hsome by done.
           rewrite Hn in Hsome. by destruct Hsome.
        -- intros _ _. split; [done|]. by rewrite lookup_insert_eq.
      * rewrite Ef. repeat apply conj; [done| |done].
        intros s Hn Hsome. rewrite Hn in Hsome. by destruct Hsome.
    + repeat apply conj; [congruence| |congruence].
      intros s Hn Hsome. rewrite Hn in Hsome. by destruct Hsome.
  - (* contact with an enemy *)
    clear Hkeep. unfold w'. simpl. unfold Entities.onCollideEnemy.
    destruct (Entities.enemies w !! id) as [en|] eqn:He.
    2:{ repeat apply conj; [congruence| |congruence].
        intros s Hn Hsome. rewrite Hn in Hsome. by destruct Hsome. }
    destruct (Entities.isInhaling (Entities.player w) && Entities.truthy (Entities.isInhalable en))
      eqn:Ec.
    + apply andb_prop in Ec as (Ei & Et). simpl.
      repeat apply conj.
      * intros _ _. exists id, en. repeat split; try done.
        apply (alive_destroy (Engine.REnemy id)).
      * intros s Hn Hsome.
        rewrite (stars_destroy_None (Engine.REnemy id) _ s) in Hsome by done.
        by destruct Hsome.
      * done.
    + destruct (Entities.hp (Entities.player w) =? 0)%Z; simpl.
      * rewrite player_destroy. repeat apply conj; [congruence| |congruence].
        intros s Hn Hsome.
        rewrite (stars_destroy_None Engine.RPlayer _ s) in Hsome by done.
        by destruct Hsome.
      * repeat apply conj; [congruence| |congruence].
        intros s Hn Hsome. rewrite Hn in Hsome. by destruct Hsome.
Qed.

Lemma full_only_by_swallowing_witness :
  ∃ id en,
    Entities.PlayerCollideEnemy 0 = Entities.PlayerCollideEnemy id
    ∧ Entities.enemies
        (Entities.run 60 [Entities.KeyDown "z"; Entities.EnemyCollideZone 0] sampleWorld)
        !! id = Some en
    ∧ Entities.isInhaling (Entities.player
        (Entities.run 60 [Entities.KeyDown "z"; Entities.EnemyCollideZone 0] sampleWorld))
      = true
    ∧ Entities.truthy (Entities.isInhalable en) = true
    ∧ Entities.alive (Engine.REnemy id)
        (Entities.step 60
           (Entities.run 60 [Entities.KeyDown "z"; Entities.EnemyCollideZone 0] sampleWorld)
           (Entities.PlayerCollideEnemy 0)) = false.
Proof.
  apply (proj1 (full_only_by_swallowing 60
           (Entities.run 60 [Entities.KeyDown "z"; Entities.EnemyCollideZone 0] sampleWorld)
           (Entities.PlayerCollideEnemy 0))); reflexivity.
Defined.

(** X12: whatever state object the two levels of [gameSetup] start from
    (the initial one after any sequence of setter calls), every [k.go]
    made in level 1 or in level 2 restarts the level or enters the other
    one: the scene [end] is never entered. *)
Theorem end_scene_is_never_entered (tps : nat) (cs : list State.Setter)
    (current next : string) (w : Entities.World) (s : string) :
  (current = "level-1" ∧ next = "level-2") ∨ (current = "level-2" ∧ next = "level-1") →
  reachable tps current next (State.calls cs State.globalGameState) w →
  Engine.Go s ∈ Entities.calls w →
  s = "level-1" ∨ s = "level-2".
Proof.
  intros Hcn Hr Hs.
  destruct (reachable_inv _ _ _ _ _ Hr) as (_ & _ & _ & _ & _ & _ & H8).
  rewrite Forall_forall in H8. specialize (H8 _ Hs). simpl in H8.
  pose proof (scenes_calls cs State.globalGameState) as Hsc. simpl in Hsc.
  unfold State.setNextScene, State.setCurrentScene in H8.
  rewrite Hsc in H8.
  destruct Hcn as [(-> & ->)|(-> & ->)]; simpl in H8; rewrite ?Hsc in H8; simpl in H8;
    destruct H8 as [->| ->]; auto.
Qed.

Lemma end_scene_is_never_entered_witness :
  "level-2" = "level-1" ∨ "level-2" = "level-2".
Proof.
  apply (end_scene_is_never_entered 60 [] "level-1" "level-2"
           (Entities.step 60 sampleWorld Entities.PlayerCollideExit) "level-2").
  - left. split; reflexivity.
  - exists sampleSpawns, sampleWorld, [Main.Ev Entities.PlayerCollideExit].
    split; [reflexivity|].
    eapply Main.runR_cons; [apply Main.stepR_ev|apply Main.runR_nil].
  - apply list_elem_of_In. left. reflexivity.
Defined.

(* --------------------------------------------------------------------- *)
(** *** entities.ts: what the handlers do to the enemies *)
(* --------------------------------------------------------------------- *)

(** A change of an enemy object that keeps its kind, its spawn position
    and its [k.move] component, keeps it with or without a state machine,
    and does not bring it back into the scene. *)
Definition gentle (f : Entities.Enemy → Entities.Enemy) : Prop :=
  ∀ en, Entities.kind (f en) = Entities.kind en
        ∧ Entities.epos (f en) = Entities.epos en
        ∧ Entities.moveComp (f en) = Entities.moveComp en
        ∧ (is_Some (Entities.mob (f en)) ↔ is_Some (Entities.mob en))
        ∧ (Entities.eexists (f en) = true → Entities.eexists en = true).

(** The events whose handlers destroy enemy [id]. *)
Definition kills (id : nat) (e : Entities.Event) : Prop :=
  e = Entities.PlayerCollideEnemy id
  ∨ (∃ sid, e = Entities.EnemyCollideStar id sid)
  ∨ e = Entities.EnemyOffscreen id.

Section EnemyFacts.
Import Engine Entities.
Variable tps : nat.

Lemma gentle_id : gentle (λ en, en).
Proof. by intros en. Qed.

Lemma gentle_compose f h : gentle f → gentle h → gentle (f ∘ h).
Proof.
  intros Hf Hh en. destruct (Hf (h en)) as (F1 & F2 & F3 & F4 & F5).
  destruct (Hh en) as (H1 & H2 & H3 & H4 & H5). simpl.
  rewrite F1, F2, F3, F4. repeat split; try done; try tauto.
Qed.

Lemma gentle_setEExists : gentle (setEExists false).
Proof. by intros en. Qed.

Lemma gentle_setIsInhalable v : gentle (setIsInhalable v).
Proof. by intros en. Qed.

Lemma gentle_enemyTick g : gentle (enemyTick tps g).
Proof.
  intros [k p i mc x m]. unfold enemyTick. simpl.
  destruct k; simpl; repeat split; try done; by rewrite ?fmap_is_Some.
Qed.

(** What a handler lets an event do to the object [id]: nothing, or a
    gentle change; it is taken out of the scene only by an event that
    kills it. *)
Definition touched (w w' : World) (id : nat) (e : Event) : Prop :=
  enemies w' !! id = enemies w !! id
  ∨ ∃ f, gentle f ∧ enemies w' !! id = f <$> enemies w !! id
         ∧ ((∀ en, eexists (f en) = eexists en) ∨ kills id e).

Lemma touched_alter f j w w' id e :
  gentle f → (∀ en, eexists (f en) = eexists en) →
  enemies w' = alter f j (enemies w) → touched w w' id e.
Proof.
  intros Hg Hx Hw. unfold touched. rewrite Hw, lookup_alter.
  case_decide as Hj; [|by left].
  subst j. right. exists f. auto.
Qed.

Lemma touched_destroy r w id e :
  (r = REnemy id → kills id e) → touched w (destroy r w) id e.
Proof.
  intros Hk. unfold destroy. destruct (alive r w); [|by left].
  destruct r as [|j|j]; unfold touched; simpl; try by left.
  rewrite lookup_alter. case_decide as Hj; [|by left].
  subst j. right. exists (setEExists false).
  split; [apply gentle_setEExists|]. split; [done|]. right. by apply Hk.
Qed.

Lemma touched_same w w' id e : enemies w' = enemies w → touched w w' id e.
Proof. intros Hw. left. by rewrite Hw. Qed.

Lemma touched_trans w w1 w2 id e :
  touched w w1 id e → touched w1 w2 id e → touched w w2 id e.
Proof.
  intros [H1|(f & Hf & H1 & K1)] [H2|(h & Hh & H2 & K2)].
  - left. by rewrite H2.
  - right. exists h. rewrite H2, H1. auto.
  - right. exists f. rewrite H2, H1. auto.
  - right. exists (h ∘ f). split; [by apply gentle_compose|]. split.
    + rewrite H2, H1. by destruct (enemies w !! id).
    + destruct K1 as [K1|K1]; [|by right]. destruct K2 as [K2|K2]; [|by right].
      left. intros en. simpl. by rewrite K2.
Qed.

Lemma touched_step w e id : touched w (step tps w e) id e.
Proof.
  destruct e; simpl; try (by apply touched_same).
  - apply touched_same. unfold onKeyDown.
    destruct (String.eqb key "left"); [done|].
    destruct (String.eqb key "right"); [done|].
    destruct (String.eqb key "z"); [|done]. by destruct (isFull (player w)).
  - apply touched_same. unfold onKeyPress. by destruct (String.eqb key "x").
  - apply touched_same. unfold onKeyRelease.
    destruct (String.eqb key "z"); [|done]. by destruct (isFull (player w)).
  - unfold onCollideEnemy. destruct (enemies w !! id0) as [en|] eqn:He; [|by left].
    destruct (isInhaling (player w) && truthy (isInhalable en)).
    + apply (touched_trans _ (destroy (REnemy id0)
                                (setPlayer (setIsInhaling false (player w)) w))).
      * apply (touched_trans _ (setPlayer (setIsInhaling false (player w)) w));
          [by left|].
        apply touched_destroy. intros [= ->]. by left.
      * by left.
    + destruct (hp (player w) =? 0)%Z; [|by left].
      apply (touched_trans _ (destroy RPlayer w)); [|by left].
      by apply touched_destroy.
  - apply touched_same. unfold playerOnUpdate. by destruct (2000 <? snd (pos (player w)))%Z.
  - by apply (touched_alter (setIsInhalable (Some true)) id0).
  - by apply (touched_alter (setIsInhalable (Some false)) id0).
  - unfold onCollideShootingStar.
    apply (touched_trans _ (destroy (REnemy id0) w)).
    + apply touched_destroy. intros [= ->]. right. left. by exists sid.
    + by apply touched_destroy.
  - apply touched_same. unfold enemyOnUpdate.
    destruct (enemies w !! id0) as [en|]; [|done].
    destruct (isInhaling (player w) && truthy (isInhalable en)); [|done].
    by destruct (String.eqb (direction (player w)) "right").
  - destruct (birdOffscreen_shape id0 w) as [->|[_ ->]]; [by left|].
    unfold touched. simpl. rewrite lookup_alter. case_decide as Hj; [|by left].
    subst id0. right. exists (setEExists false).
    split; [apply gentle_setEExists|]. split; [done|]. right. right. by right.
  - apply (touched_alter (enemyTick tps isGrounded) id0); [apply gentle_enemyTick| |done].
    intros [k ? ? ? ? ?]. unfold enemyTick. by destruct k.
  - unfold starOnCollidePlatform. by apply touched_destroy.
  - apply touched_same. by destruct (tick_shape w) as (a & ts & ->).
Qed.
End EnemyFacts.

(** X13: no event adds an enemy to the scene store or removes one from
    it, no event brings a destroyed enemy back, and an enemy is destroyed
    only by a contact with the player, a contact with a projectile or its
    leaving the screen; in particular hurting the player costs the enemy
    nothing.  Over any sequence of events, the store keeps its objects and
    a destroyed enemy stays destroyed. *)
Theorem enemies_only_die (tps : nat) (w : Entities.World) (id : nat) :
  (∀ e : Entities.Event,
     (is_Some (Entities.enemies (Entities.step tps w e) !! id)
      ↔ is_Some (Entities.enemies w !! id))
     ∧ (Entities.alive (Engine.REnemy id) (Entities.step tps w e) = true →
        Entities.alive (Engine.REnemy id) w = true)
     ∧ (Entities.alive (Engine.REnemy id) w = true →
        Entities.alive (Engine.REnemy id) (Entities.step tps w e) = false →
        kills id e))
  ∧ (∀ es : list Entities.Event,
       dom (Entities.enemies (Entities.run tps es w)) = dom (Entities.enemies w)
       ∧ (Entities.alive (Engine.REnemy id) w = false →
          Entities.alive (Engine.REnemy id) (Entities.run tps es w) = false)).
Proof.
  assert (∀ w0 e j,
            (is_Some (Entities.enemies (Entities.step tps w0 e) !! j)
             ↔ is_Some (Entities.enemies w0 !! j))
            ∧ (Entities.alive (Engine.REnemy j) (Entities.step tps w0 e) = true →
               Entities.alive (Engine.REnemy j) w0 = true)
            ∧ (Entities.alive (Engine.REnemy j) w0 = true →
               Entities.alive (Engine.REnemy j) (Entities.step tps w0 e) = false →
               kills j e)) as Hstep.
  { intros w0 e j. simpl.
    destruct (touched_step tps w0 e j) as [H|(f & Hf & H & K)]; rewrite H.
    - repeat split; try done. congruence.
    - destruct (Entities.enemies w0 !! j) as [en|]; simpl; [|by repeat split].
      destruct (Hf en) as (_ & _ & _ & _ & Hx).
      repeat split; try done; try (by eexists).
      intros Ha Hd. destruct K as [K|K]; [|done]. rewrite K in Hd. congruence. }
  split; [intros e; apply Hstep|].
  intros es. revert w. induction es as [|e es IH] using rev_ind; intros w; [done|].
  rewrite run_snoc. destruct (IH w) as (Hd & Ha). split.
  - rewrite <- Hd. apply set_eq. intros j. rewrite !elem_of_dom. apply Hstep.
  - intros Hdead. specialize (Ha Hdead).
    destruct (Entities.alive (Engine.REnemy id)
                (Entities.step tps (Entities.run tps es w) e)) eqn:E; [|done].
    apply Hstep in E. congruence.
Qed.

Lemma enemies_only_die_witness :
  kills 3 (Entities.EnemyOffscreen 3).
Proof.
  apply (proj2 (proj2 (proj1 (enemies_only_die 60
                                (Entities.makeBirdEnemy 100 20 200 sampleWorld) 3)
                         (Entities.EnemyOffscreen 3)))); reflexivity.
Defined.

(** A bird flies to the left at one of the three speeds and has no state
    machine; a flame or a guy has a state machine and no [k.move]
    component. *)
Definition enemyOk (en : Entities.Enemy) : Prop :=
  match Entities.kind en with
  | Entities.Bird =>
      ¬ is_Some (Entities.mob en)
      ∧ ∃ v, v ∈ Main.possibleSpeeds ∧ Entities.moveComp en = Some (Engine.LEFT, v)
  | _ => is_Some (Entities.mob en) ∧ Entities.moveComp en = None
  end.

Section KindFacts.
Import Engine Entities Main.
Variable tps : nat.

Lemma enemyOk_gentle f en : gentle f → enemyOk en → enemyOk (f en).
Proof.
  intros Hf. destruct (Hf en) as (H1 & _ & H3 & H4 & _).
  unfold enemyOk. rewrite H1, H3.
  destruct (kind en); intros (Hm & Hv); (split; [|done]); tauto.
Qed.

Lemma enemyOk_step w e :
  map_Forall (λ _ en, enemyOk en) (enemies w) →
  map_Forall (λ _ en, enemyOk en) (enemies (step tps w e)).
Proof.
  intros Hall id en Hen.
  destruct (touched_step tps w e id) as [H|(f & Hf & H & _)]; rewrite H in Hen.
  - by apply (Hall id).
  - destruct (enemies w !! id) as [en0|] eqn:E; [|done].
    injection Hen as <-. apply enemyOk_gentle; [done|]. by apply (Hall id).
Qed.

Lemma enemyOk_spawnAll mk l : ∀ w,
  (∀ p, enemyOk (mk p)) →
  map_Forall (λ _ en, enemyOk en) (enemies w) →
  map_Forall (λ _ en, enemyOk en) (enemies (spawnAll mk w l)).
Proof.
  induction l as [|p l IH]; intros w Hmk Hall; [done|].
  simpl. apply IH; [done|]. simpl. by apply map_Forall_insert_2.
Qed.

Lemma enemyOk_level current next sp g w :
  level tps current next sp g = Some w →
  map_Forall (λ _ en, enemyOk en) (enemies w).
Proof.
  unfold level. destruct (spPlayer sp) as [|[x y] rest]; [done|].
  intros Hl. injection Hl as <-. unfold scene. rewrite spawn_flames, spawn_guys.
  apply enemyOk_spawnAll.
  { intros p. split; [by eexists|done]. }
  apply enemyOk_spawnAll.
  { intros p. split; [by eexists|done]. }
  apply map_Forall_empty.
Qed.

Lemma pickSpeed_elem r v : pickSpeed r = Some v → v ∈ possibleSpeeds.
Proof.
  unfold pickSpeed. cbv zeta. destruct (_ <? 0)%Z; [done|].
  intros H. by apply list_elem_of_lookup_2 in H.
Qed.

Lemma enemyOk_runR ins : ∀ w w',
  map_Forall (λ _ en, enemyOk en) (enemies w) → runR tps w ins w' →
  map_Forall (λ _ en, enemyOk en) (enemies w').
Proof.
  induction ins as [|i ins IH]; intros w w' Hw Hr.
  - by inversion Hr; subst.
  - inversion Hr as [|? ? w1 ? ? Hs Hr1]; subst.
    apply (IH w1); [|done].
    inversion Hs as [|? x y r v H0 H1 Hp]; subst; [by apply enemyOk_step|].
    simpl. apply map_Forall_insert_2; [|done].
    split; [by intros [? ?]|]. exists v. split; [|done]. by apply (pickSpeed_elem r).
Qed.
End KindFacts.

(** X14: in every world a level can be driven into, every bird flies to
    the left at 100, 200 or 300 and has no state machine, and every flame
    and every guy has its state machine and no [k.move] component: no
    handler ever changes what kind of enemy an object is. *)
Theorem birds_fly_left_at_a_listed_speed (tps : nat) (current next : string)
    (g : State.GameState) (w : Entities.World) (id : nat) (en : Entities.Enemy) :
  reachable tps current next g w →
  Entities.enemies w !! id = Some en →
  match Entities.kind en with
  | Entities.Bird =>
      Entities.mob en = None
      ∧ ∃ v, v ∈ [100; 200; 300]%Z ∧ Entities.moveComp en = Some (Engine.LEFT, v)
  | _ => is_Some (Entities.mob en) ∧ Entities.moveComp en = None
  end.
Proof.
  intros (sp & w0 & ins & Hl & Hr) Hen.
  assert (enemyOk en) as Hok.
  { apply (enemyOk_runR tps ins w0 w (enemyOk_level tps _ _ _ _ _ Hl) Hr id en Hen). }
  unfold enemyOk in Hok. destruct (Entities.kind en); try done.
  destruct Hok as (Hm & Hv). split; [|done].
  destruct (Entities.mob en); [|done]. exfalso. apply Hm. by eexists.
Qed.

Lemma birds_fly_left_at_a_listed_speed_witness :
  is_Some (Entities.mob (flameAt 60 (30, 20)%Z))
  ∧ Entities.moveComp (flameAt 60 (30, 20)%Z) = None.
Proof.
  refine (birds_fly_left_at_a_listed_speed 60 "level-1" "level-2" State.globalGameState
            _ 0 (flameAt 60 (30, 20)%Z) sample_reachable _).
  reflexivity.
Defined.

(* --------------------------------------------------------------------- *)
(** *** entities.ts: the facing side *)
(* --------------------------------------------------------------------- *)

(** X15: in every world a level can be driven into, with the player no
    further than 2^52 from the origin along x (the positions are the
    integers of the model; up to there a double too takes the offsets 60
    and 80 exactly), the inhale zone, the inhale effect and a projectile
    shot now all lie on the side the player faces, the projectile flies
    away to that side, the effect is flipped like the player, and an enemy
    that is being inhaled is pulled the other way, toward the player. *)
Theorem everything_is_on_the_facing_side (tps : nat) (current next : string)
    (g : State.GameState) (w : Entities.World) :
  reachable tps current next g w →
  (Z.abs (fst (Entities.pos (Entities.player w))) ≤ 2 ^ 52)%Z →
  let p := Entities.player w in
  let v := Entities.inhaleZoneOnUpdate p in
  let star := Entities.shootingStar p in
  Entities.effectFlipX v = Entities.flipX p
  ∧ ((Entities.direction p = "left"
      ∧ (fst (Entities.zonePos v) < 0)%Z
      ∧ (fst (Entities.effectPos v) < fst (Entities.pos p))%Z
      ∧ (fst (Entities.spos star) < fst (Entities.pos p))%Z
      ∧ Entities.smove star = (Engine.LEFT, 800%Z))
     ∨ (Entities.direction p = "right"
        ∧ (0 < fst (Entities.zonePos v))%Z
        ∧ (fst (Entities.pos p) < fst (Entities.effectPos v))%Z
        ∧ (fst (Entities.pos p) < fst (Entities.spos star))%Z
        ∧ Entities.smove star = (Engine.RIGHT, 800%Z)))
  ∧ (∀ id en,
       Entities.enemies w !! id = Some en →
       Entities.isInhaling p = true →
       Entities.truthy (Entities.isInhalable en) = true →
       ∃ vx, Entities.calls (Entities.step tps w (Entities.EnemyUpdate id))
             = Entities.calls w ++ [Engine.Body (Engine.REnemy id) (Engine.BMove vx 0)]
             ∧ (vx * fst (Entities.zonePos v) < 0)%Z).
Proof.
  intros Hr Hb p v star.
  destruct (reachable_inv _ _ _ _ _ Hr) as (_ & _ & _ & _ & H5 & _).
  fold p in H5. unfold v, star, Entities.inhaleZoneOnUpdate, Entities.shootingStar.
  destruct H5 as [(Hd & Hx)|(Hd & Hx)]; rewrite Hd, Hx; simpl.
  - split; [done|]. split.
    + left. repeat split; lia.
    + intros id en He Hi Ht. exists 800%Z. unfold Entities.enemyOnUpdate.
      fold p. rewrite He, Hi, Ht, Hd. simpl. split; [done|lia].
  - split; [done|]. split.
    + right. repeat split; lia.
    + intros id en He Hi Ht. exists (-800)%Z. unfold Entities.enemyOnUpdate.
      fold p. rewrite He, Hi, Ht, Hd. simpl. split; [done|lia].
Qed.

Lemma everything_is_on_the_facing_side_witness :
  Entities.effectFlipX
    (Entities.inhaleZoneOnUpdate
       (Entities.player (Entities.step 60 sampleWorld (Entities.KeyDown "z"))))
  = Entities.flipX (Entities.player (Entities.step 60 sampleWorld (Entities.KeyDown "z"))).
Proof.
  refine (proj1 (everything_is_on_the_facing_side 60 "level-1" "level-2"
                   State.globalGameState _ sample_reachable _)).
  vm_compute. discriminate.
Defined.

(* --------------------------------------------------------------------- *)
(** *** entities.ts: the flame under any grounded answers *)
(* --------------------------------------------------------------------- *)

Section FlameRate.
Import Engine Entities.
Variable tps : nat.
Hypothesis tps_pos : 0 < tps.

(** Every jump so far has been preceded by a full second of Idle. *)
Definition flamePaced (m : Mob) : Prop :=
  stateList (comp m) = flameStates
  ∧ Forall (λ c, c = BJump 1000) (mbody m)
  ∧ ((state (comp m) = "idle"
      ∧ ∃ d, mtimers m = [mkTimer d "jump"] ∧ mclock m < d ≤ mclock m + tps
             ∧ (length (mbody m) + 1) * tps ≤ d)
     ∨ (state (comp m) = "jump" ∧ mtimers m = []
        ∧ length (mbody m) * tps ≤ mclock m)).

Lemma flamePaced_spawn : flamePaced (makeFlameMob tps).
Proof.
  unfold flamePaced, makeFlameMob, start. simpl. repeat split; [done|].
  left. split; [done|]. exists (0 + 1 * tps). unfold wait. simpl.
  repeat split; lia.
Qed.

Lemma flamePaced_tick g m :
  flamePaced m →
  flamePaced (flameTick tps g m) ∧ mclock (flameTick tps g m) = S (mclock m).
Proof.
  assert (∀ l, Forall (λ c, c = BJump 1000) l →
               Forall (λ c, c = BJump 1000) (l ++ [BJump 1000])) as Hsnoc.
  { intros l Hl. apply Forall_app. split; [done|]. by repeat constructor. }
  intros (Hl & Hb & [(Hs & d & Ht & (Hc & Hc') & Hd)|(Hs & Ht & Hd)]).
  - assert (comp m = mkStateComp flameStates "idle") as Hcomp
      by (destruct (comp m); simpl in *; by subst).
    unfold flameTick. destruct (decide (S (mclock m) = d)) as [Heq|Hne].
    + rewrite (mobTick_due _ _ _ _ Ht) by done.
      cbv zeta. unfold flameEnterState, enterState. simpl. rewrite Hcomp. simpl.
      unfold flameOnStateUpdate. simpl.
      destruct g.
      * unfold flameEnterState, enterState. simpl.
        unfold flamePaced, mobWait, wait. simpl. rewrite length_app. simpl.
        split; [|done]. split; [done|]. split; [by apply Hsnoc|].
        left. split; [done|]. eexists. split; [done|]. split; [lia|nia].
      * unfold flamePaced. simpl. rewrite length_app. simpl.
        split; [|done]. split; [done|]. split; [by apply Hsnoc|].
        right. split; [done|]. split; [done|]. nia.
    + rewrite (mobTick_pending _ _ _ _ Ht) by (simpl; lia).
      rewrite Hcomp. unfold flameOnStateUpdate. simpl.
      unfold flamePaced. simpl. rewrite Hcomp. simpl.
      split; [|done]. split; [done|]. split; [done|].
      left. split; [done|]. exists d. split; [done|]. split; lia.
  - assert (comp m = mkStateComp flameStates "jump") as Hcomp
      by (destruct (comp m); simpl in *; by subst).
    unfold flameTick. rewrite (mobTick_no_timer _ _ _ Ht). rewrite Hcomp.
    unfold flameOnStateUpdate. simpl. destruct g.
    + unfold flameEnterState, enterState. simpl. rewrite Hcomp. simpl.
      unfold flamePaced, mobWait, wait. simpl. rewrite Ht. simpl.
      split; [|done]. split; [done|]. split; [done|].
      left. split; [done|]. eexists. split; [done|]. split; [lia|nia].
    + unfold flamePaced. simpl. rewrite Hcomp. simpl.
      split; [|done]. split; [done|]. split; [done|].
      right. split; [done|]. split; [done|]. lia.
Qed.

Lemma flamePaced_run gs :
  let m := flameRun tps gs (makeFlameMob tps) in
  flamePaced m ∧ mclock m = length gs.
Proof.
  induction gs as [|g gs (IH1 & IH2)] using rev_ind.
  - split; [apply flamePaced_spawn|done].
  - cbv zeta. rewrite flameRun_snoc, length_app. simpl.
    destruct (flamePaced_tick g _ IH1) as (H1 & H2).
    split; [done|]. rewrite H2, IH2. lia.
Qed.
End FlameRate.

(** X16: whatever the grounded check answers, tick after tick, a flame is
    always Idle or in Jump, every call it makes on its body is the upward
    impulse of 1000, and each impulse has a full second of its own before
    it: after [n] ticks, at [tps] ticks to the second, it has jumped at
    most [n / tps] times. *)
Theorem flame_jumps_at_most_once_a_second (tps : nat) (gs : list bool) :
  0 < tps →
  let m := Entities.flameRun tps gs (Entities.makeFlameMob tps) in
  (Engine.state (Entities.comp m) = "idle" ∨ Engine.state (Entities.comp m) = "jump")
  ∧ Forall (λ c, c = Engine.BJump 1000) (Entities.mbody m)
  ∧ length (Entities.mbody m) * tps ≤ length gs.
Proof.
  intros Hpos m.
  destruct (flamePaced_run tps Hpos gs) as ((Hl & Hb & Hcase) & Hclock).
  fold m in Hl, Hb, Hcase, Hclock.
  destruct Hcase as [(Hs & d & Ht & (Hc & Hc') & Hd)|(Hs & Ht & Hd)].
  - split; [by left|]. split; [done|]. nia.
  - split; [by right|]. split; [done|]. lia.
Qed.

Lemma flame_jumps_at_most_once_a_second_witness :
  length (Entities.mbody
    (Entities.flameRun 2 [true; true; true; true; true] (Entities.makeFlameMob 2))) * 2
  ≤ 5.
Proof.
  assert (0 < 2) as Hpos by lia.
  exact (proj2 (proj2 (flame_jumps_at_most_once_a_second 2
                         [true; true; true; true; true] Hpos))).
Defined.

(* --------------------------------------------------------------------- *)
(** *** entities.ts: where the guy walks *)
(* --------------------------------------------------------------------- *)

(** The horizontal velocity a body call asks for, and the sum over a
    record of calls: the displacement so far, in units of one tick. *)
Definition vxOf (c : Engine.BodyCall) : Z :=
  match c with Engine.BMove vx _ => vx | Engine.BJump _ => 0%Z end.

Definition netMove (l : list Engine.BodyCall) : Z :=
  foldr (λ c acc, (vxOf c + acc)%Z) 0%Z l.

(** Modelled from the spec: the other order in which a tick can serve one
    state-machine object.  §5 says that a delayed continuation "runs on a
    future tick when its deadline elapses", not whether before or after
    the update callback of that tick.  [mobTick] runs it before; here the
    update callback of the current state runs first, then the
    continuations that fell due. *)
Definition mobTickLate (enter update : string → Entities.Mob → Entities.Mob)
    (m : Entities.Mob) : Entities.Mob :=
  let now := S (Entities.mclock m) in
  let m0 := update (Engine.state (Entities.comp m)) (Entities.setMClock now m) in
  let dues := List.filter (Engine.due now) (Entities.mtimers m0) in
  let rest := List.filter (λ t, negb (Engine.due now t)) (Entities.mtimers m0) in
  foldl (λ acc t, enter (Engine.cont t) acc) (Entities.setMTimers rest m0) dues.

(** A guy run for a number of ticks in either order: [late] says that the
    timers of a tick run after its update callback. *)
Definition guyTickIn (tps : nat) (late : bool) : Entities.Mob → Entities.Mob :=
  if late then mobTickLate (Entities.guyEnterState tps) Entities.guyOnStateUpdate
  else Entities.guyTick tps.

Fixpoint guyRunIn (tps : nat) (late : bool) (n : nat) (m : Entities.Mob) : Entities.Mob :=
  match n with
  | O => m
  | S n' => guyTickIn tps late (guyRunIn tps late n' m)
  end.

(** A move of 100 to the left or to the right. *)
Definition isStride (c : Engine.BodyCall) : Prop :=
  c = Engine.BMove (-100) 0 ∨ c = Engine.BMove 100 0.

Section GuyWalk.
Import Engine Entities.
Variable tps : nat.
Hypothesis tps_pos : 0 < tps.

Lemma netMove_snoc l c : netMove (l ++ [c]) = (netMove l + vxOf c)%Z.
Proof. unfold netMove. induction l as [|x l IH]; simpl; [lia|]. rewrite IH. lia. Qed.

Lemma guy_first_body n m :
  guyIdleInv tps n m → S n = tps → mbody (guyTick tps m) = [BMove (-100) 0].
Proof.
  intros (Hc & Hn & Hs & Hv & Ht & Hb) Heq. unfold guyTick.
  rewrite (mobTick_due _ _ _ _ Ht) by (simpl; lia).
  cbv zeta. unfold guyEnterState, enterState. simpl. rewrite Hs. simpl.
  unfold guyOnStateUpdate, mobWait. simpl. rewrite Hv. simpl. by rewrite Hb.
Qed.

Lemma guy_walk_body k r m :
  guyWalkInv tps k r m → S r < 2 * tps →
  mbody (guyTick tps m) = mbody m ++ [BMove (vel k) 0].
Proof.
  intros (Hc & Hr & Hs & Hv & Hf & Ht & Hl & Hb) Hlt. unfold guyTick.
  rewrite (mobTick_pending _ _ _ _ Ht) by (simpl; lia).
  rewrite Hs. unfold guyOnStateUpdate. simpl. rewrite Hv.
  unfold side, vel. by destruct (Nat.even k).
Qed.

Lemma guy_turn_body k r m :
  guyWalkInv tps k r m → S r = 2 * tps →
  mbody (guyTick tps m) = mbody m ++ [BMove (vel (S k)) 0].
Proof.
  intros (Hc & Hr & Hs & Hv & Hf & Ht & Hl & Hb) Heq. unfold guyTick.
  rewrite (mobTick_due _ _ _ _ Ht) by (simpl; lia).
  cbv zeta. unfold guyEnterState, enterState. simpl. rewrite Hs.
  unfold side, vel in *. rewrite (Nat.even_succ k). unfold Nat.odd. simpl stateList.
  destruct (Nat.even k); simpl;
    unfold guyOnStateUpdate, mobWait; simpl; by rewrite Hv.
Qed.

(** The displacement [r] ticks into phase [k]: the walk to the left takes
    the guy out, the walk to the right brings it back. *)
Definition guyNet (k r : nat) : Z :=
  if Nat.even k then (-100 * (Z.of_nat r + 1))%Z
  else (100 * (Z.of_nat r + 1) - 200 * Z.of_nat tps)%Z.

Lemma guyRun_S n m : guyRun tps (S n) m = guyTick tps (guyRun tps n m).
Proof. done. Qed.

Lemma guy_net_run k r :
  r < 2 * tps →
  netMove (mbody (guyRun tps (tps + 2 * tps * k + r) (makeGuyMob tps))) = guyNet k r.
Proof.
  revert r. induction k as [|k IHk]; intros r; induction r as [|r IHr]; intros Hlt.
  - replace (tps + 2 * tps * 0 + 0) with (S (tps - 1)) by lia. rewrite guyRun_S.
    rewrite (guy_first_body (tps - 1)); [done| |lia].
    apply guy_idle_run; lia.
  - replace (tps + 2 * tps * 0 + S r) with (S (tps + 2 * tps * 0 + r)) by lia.
    rewrite guyRun_S. rewrite (guy_walk_body 0 r); [| |lia].
    + rewrite netMove_snoc, IHr by lia. unfold guyNet, vel. simpl. lia.
    + apply guy_walk_run; lia.
  - replace (tps + 2 * tps * S k + 0) with (S (tps + 2 * tps * k + (2 * tps - 1))) by lia.
    rewrite guyRun_S. rewrite (guy_turn_body k (2 * tps - 1)); [| |lia].
    + rewrite netMove_snoc, IHk by lia. unfold guyNet, vel.
      rewrite (Nat.even_succ k). unfold Nat.odd.
      destruct (Nat.even k); simpl vxOf; simpl negb; cbv iota; lia.
    + apply guy_walk_run; lia.
  - replace (tps + 2 * tps * S k + S r) with (S (tps + 2 * tps * S k + r)) by lia.
    rewrite guyRun_S. rewrite (guy_walk_body (S k) r); [| |lia].
    + rewrite netMove_snoc, IHr by lia. unfold guyNet, vel.
      destruct (Nat.even (S k)); simpl vxOf; lia.
    + apply guy_walk_run; lia.
Qed.

Lemma guy_phase n : n < tps ∨ ∃ k r, n = tps + 2 * tps * k + r ∧ r < 2 * tps.
Proof.
  destruct (Nat.lt_ge_cases n tps) as [Hlt|Hge]; [by left|]. right.
  exists ((n - tps) / (2 * tps)), ((n - tps) mod (2 * tps)).
  pose proof (Nat.div_mod_eq (n - tps) (2 * tps)) as Hdm.
  pose proof (Nat.mod_upper_bound (n - tps) (2 * tps)) as Hub.
  split; lia.
Qed.

Lemma guyRunIn_early n m : guyRunIn tps false n m = guyRun tps n m.
Proof. induction n as [|n IH]; [done|]. simpl. by rewrite IH. Qed.

Lemma isStride_vel k : isStride (BMove (vel k) 0).
Proof. unfold isStride, vel. destruct (Nat.even k); auto. Qed.

(** The displacement in the order of [mobTick], with the bodies as
    [guy_net_run] has them. *)
Lemma guy_strides_run k r :
  r < 2 * tps →
  Forall isStride (mbody (guyRun tps (tps + 2 * tps * k + r) (makeGuyMob tps))).
Proof.
  revert r. induction k as [|k IHk]; intros r; induction r as [|r IHr]; intros Hlt.
  - replace (tps + 2 * tps * 0 + 0) with (S (tps - 1)) by lia. rewrite guyRun_S.
    rewrite (guy_first_body (tps - 1)); [|apply guy_idle_run; lia|lia].
    repeat constructor.
  - replace (tps + 2 * tps * 0 + S r) with (S (tps + 2 * tps * 0 + r)) by lia.
    rewrite guyRun_S. rewrite (guy_walk_body 0 r); [|apply guy_walk_run; lia|lia].
    apply Forall_app. split; [apply IHr; lia|]. apply Forall_singleton, isStride_vel.
  - replace (tps + 2 * tps * S k + 0) with (S (tps + 2 * tps * k + (2 * tps - 1))) by lia.
    rewrite guyRun_S. rewrite (guy_turn_body k (2 * tps - 1)); [|apply guy_walk_run; lia|lia].
    apply Forall_app. split; [apply IHk; lia|]. apply Forall_singleton, isStride_vel.
  - replace (tps + 2 * tps * S k + S r) with (S (tps + 2 * tps * S k + r)) by lia.
    rewrite guyRun_S. rewrite (guy_walk_body (S k) r); [|apply guy_walk_run; lia|lia].
    apply Forall_app. split; [apply IHr; lia|]. apply Forall_singleton, isStride_vel.
Qed.

(** The other order.  The displacement [r] ticks into phase [k]: the
    update callback has run [r] times in this phase. *)
Definition guyNetLate (k r : nat) : Z :=
  if Nat.even k then (-100 * Z.of_nat r)%Z
  else (100 * Z.of_nat r - 200 * Z.of_nat tps)%Z.

Definition guyWalkLate (k r : nat) (m : Mob) : Prop :=
  mclock m = tps + 2 * tps * k + r ∧ r < 2 * tps
  ∧ comp m = mkStateComp guyStates (side k)
  ∧ mspeed m = Some 100%Z
  ∧ mtimers m = [mkTimer (tps + 2 * tps * S k) (side (S k))]
  ∧ Forall isStride (mbody m)
  ∧ netMove (mbody m) = guyNetLate k r.

Lemma guyOnStateUpdate_mtimers name m : mtimers (guyOnStateUpdate name m) = mtimers m.
Proof.
  unfold guyOnStateUpdate. destruct (mspeed m); [|done].
  destruct (String.eqb name "left"); [done|]. by destruct (String.eqb name "right").
Qed.

(** A tick in the other order that fires no timer, and one on which the
    only pending timer is due. *)
Lemma mobTickLate_pending enter update m t :
  mtimers (update (state (comp m)) (setMClock (S (mclock m)) m)) = [t] →
  S (mclock m) < deadline t →
  mobTickLate enter update m = update (state (comp m)) (setMClock (S (mclock m)) m).
Proof.
  intros Ht Hlt. unfold mobTickLate. cbv zeta. rewrite Ht. simpl. unfold due.
  destruct (Nat.leb_spec (deadline t) (S (mclock m))) as [Hle|_]; [lia|].
  simpl. destruct (update _ _); simpl in *. by subst.
Qed.

Lemma mobTickLate_due enter update m t :
  mtimers (update (state (comp m)) (setMClock (S (mclock m)) m)) = [t] →
  deadline t = S (mclock m) →
  mobTickLate enter update m
  = enter (cont t) (setMTimers [] (update (state (comp m)) (setMClock (S (mclock m)) m))).
Proof.
  intros Ht Hd. unfold mobTickLate. cbv zeta. rewrite Ht. simpl. unfold due.
  by rewrite Hd, Nat.leb_refl.
Qed.

Lemma late_idle_step n m :
  guyIdleInv tps n m → S n < tps → guyIdleInv tps (S n) (guyTickIn tps true m).
Proof.
  intros (Hc & Hn & Hs & Hv & Ht & Hb) Hlt. unfold guyTickIn.
  rewrite (mobTickLate_pending _ _ _ (mkTimer tps "left"));
    [|by rewrite guyOnStateUpdate_mtimers|simpl; lia].
  rewrite Hs. unfold guyOnStateUpdate. simpl. rewrite Hv. simpl.
  unfold guyIdleInv. simpl. by rewrite Hc.
Qed.

Lemma late_first_step n m :
  guyIdleInv tps n m → S n = tps → guyWalkLate 0 0 (guyTickIn tps true m).
Proof.
  intros (Hc & Hn & Hs & Hv & Ht & Hb) Heq. unfold guyTickIn.
  rewrite (mobTickLate_due _ _ _ (mkTimer tps "left"));
    [|by rewrite guyOnStateUpdate_mtimers|simpl; lia].
  rewrite Hs. unfold guyOnStateUpdate. simpl. rewrite Hv. simpl.
  unfold guyEnterState, enterState. simpl. rewrite Hs. simpl.
  unfold mobWait, wait. simpl. unfold guyWalkLate. simpl. rewrite Hb, Hc.
  repeat split; try done; try lia.
  unfold wait. simpl. do 2 f_equal. lia.
Qed.

Lemma late_walk_step k r m :
  guyWalkLate k r m → S r < 2 * tps → guyWalkLate k (S r) (guyTickIn tps true m).
Proof.
  intros (Hc & Hr & Hs & Hv & Ht & Hf & Hn) Hlt. unfold guyTickIn.
  rewrite (mobTickLate_pending _ _ _ (mkTimer (tps + 2 * tps * S k) (side (S k))));
    [|by rewrite guyOnStateUpdate_mtimers|simpl; lia].
  rewrite Hs. unfold guyOnStateUpdate. simpl. rewrite Hv.
  unfold guyWalkLate, guyNetLate, side in *.
  destruct (Nat.even k); simpl;
    rewrite Hc, netMove_snoc, Hn; simpl;
    (repeat split; try done; try lia);
    apply Forall_app; (split; [done|]); apply Forall_singleton; unfold isStride; auto.
Qed.

Lemma late_turn_step k r m :
  guyWalkLate k r m → S r = 2 * tps → guyWalkLate (S k) 0 (guyTickIn tps true m).
Proof.
  intros (Hc & Hr & Hs & Hv & Ht & Hf & Hn) Heq. unfold guyTickIn.
  rewrite (mobTickLate_due _ _ _ (mkTimer (tps + 2 * tps * S k) (side (S k))));
    [|by rewrite guyOnStateUpdate_mtimers|simpl; lia].
  unfold guyEnterState, enterState, guyOnStateUpdate. simpl. rewrite Hs, Hv.
  unfold guyWalkLate, guyNetLate, side in *.
  rewrite (Nat.even_succ (S k)), (Nat.odd_succ k), (Nat.even_succ k).
  unfold Nat.odd. simpl stateList.
  destruct (Nat.even k); simpl; rewrite Hs; simpl;
    unfold mobWait, wait; simpl; rewrite Hc, netMove_snoc, Hn; simpl;
    (repeat split; try done; try lia);
    try (unfold wait; simpl; do 2 f_equal; lia);
    apply Forall_app; (split; [done|]); apply Forall_singleton; unfold isStride; auto.
Qed.

Lemma late_idle_run n :
  n < tps → guyIdleInv tps n (guyRunIn tps true n (makeGuyMob tps)).
Proof.
  induction n as [|n IH]; intros Hlt; [by apply guy_spawn_inv|].
  simpl. apply late_idle_step; [apply IH|]; lia.
Qed.

Lemma late_walk_run k r :
  r < 2 * tps →
  guyWalkLate k r (guyRunIn tps true (tps + 2 * tps * k + r) (makeGuyMob tps)).
Proof.
  revert r. induction k as [|k IHk]; intros r; induction r as [|r IHr]; intros Hlt.
  - replace (tps + 2 * tps * 0 + 0) with (S (tps - 1)) by lia. simpl.
    apply (late_first_step (tps - 1)); [apply late_idle_run|]; lia.
  - replace (tps + 2 * tps * 0 + S r) with (S (tps + 2 * tps * 0 + r)) by lia.
    simpl guyRunIn. apply late_walk_step; [apply IHr|]; lia.
  - replace (tps + 2 * tps * S k + 0) with (S (tps + 2 * tps * k + (2 * tps - 1))) by lia.
    simpl guyRunIn. apply (late_turn_step k (2 * tps - 1)); [apply IHk|]; lia.
  - replace (tps + 2 * tps * S k + S r) with (S (tps + 2 * tps * S k + r)) by lia.
    simpl guyRunIn. apply late_walk_step; [apply IHr|]; lia.
Qed.

(** In either order: the body calls of the idle pause and of tick [r] of
    phase [k]. *)
Lemma guy_idle_in late n :
  n < tps → mbody (guyRunIn tps late n (makeGuyMob tps)) = [].
Proof.
  intros Hlt. destruct late.
  - by destruct (late_idle_run n Hlt) as (_ & _ & _ & _ & _ & Hb).
  - rewrite guyRunIn_early. by destruct (guy_idle_run tps tps_pos n Hlt) as (_ & _ & _ & _ & _ & Hb).
Qed.

Lemma guy_walk_in late k r :
  r < 2 * tps →
  let body := mbody (guyRunIn tps late (tps + 2 * tps * k + r) (makeGuyMob tps)) in
  Forall isStride body
  ∧ netMove body = if late then guyNetLate k r else guyNet k r.
Proof.
  intros Hlt body. unfold body. destruct late.
  - by destruct (late_walk_run k r Hlt) as (_ & _ & _ & _ & _ & Hf & Hn).
  - rewrite guyRunIn_early. split; [by apply guy_strides_run|by apply guy_net_run].
Qed.
End GuyWalk.

(** X17: a guy left to itself never enters its declared state [jump]: at
    every tick it is in [idle], [left] or [right]. *)
Theorem guy_never_jumps (tps n : nat) :
  0 < tps →
  let m := Entities.guyRun tps n (Entities.makeGuyMob tps) in
  Engine.state (Entities.comp m) ∈ ["idle"; "left"; "right"]
  ∧ Engine.state (Entities.comp m) ≠ "jump".
Proof.
  intros Hpos m.
  assert (Engine.state (Entities.comp m) ∈ ["idle"; "left"; "right"]) as Hin.
  { destruct (guy_phase tps Hpos n) as [Hlt|(k & r & -> & Hr)].
    - destruct (guy_idle_run tps Hpos n Hlt) as (_ & _ & Hs & _).
      unfold m. rewrite Hs. set_solver.
    - destruct (guy_walk_run tps Hpos k r Hr) as (_ & _ & Hs & _).
      unfold m. rewrite Hs. simpl. unfold side. destruct (Nat.even k); set_solver. }
  split; [done|]. intros Hj. rewrite Hj in Hin.
  repeat (apply elem_of_cons in Hin as [Hin|Hin]; [discriminate Hin|]).
  by apply elem_of_nil in Hin.
Qed.

Lemma guy_never_jumps_witness :
  Engine.state (Entities.comp (Entities.guyRun 2 9 (Entities.makeGuyMob 2))) ≠ "jump".
Proof.
  assert (0 < 2) as Hpos by lia.
  exact (proj2 (guy_never_jumps 2 9 Hpos)).
Defined.

(** X18: a guy left to itself keeps to its patrol range, whether the
    timers of a tick run before or after its update callback.  Every call
    it makes on its body is a move of 100 to the left or to the right; the
    moves made so far never add up to more than two seconds of walking to
    the left of the spawn point, and never to anything to the right of it;
    and in every cycle of four seconds it reaches the far end of the range
    and comes back to the spawn point. *)
Theorem guy_keeps_to_its_patrol_range (tps : nat) (late : bool) :
  0 < tps →
  let body n := Entities.mbody (guyRunIn tps late n (Entities.makeGuyMob tps)) in
  (∀ n, Forall isStride (body n)
        ∧ (-200 * Z.of_nat tps ≤ netMove (body n) ≤ 0)%Z)
  ∧ (∀ j, ∃ n, tps + 4 * tps * j ≤ n ≤ tps + 4 * tps * S j
               ∧ netMove (body n) = (-200 * Z.of_nat tps)%Z)
  ∧ (∀ j, ∃ n, tps + 4 * tps * j ≤ n ≤ tps + 4 * tps * S j
               ∧ netMove (body n) = 0%Z).
Proof.
  intros Hpos body. repeat apply conj.
  - intros n. unfold body.
    destruct (guy_phase tps Hpos n) as [Hlt|(k & r & -> & Hr)].
    + rewrite (guy_idle_in tps Hpos late n Hlt). split; [constructor|simpl; lia].
    + destruct (guy_walk_in tps Hpos late k r Hr) as (Hf & ->). split; [done|].
      unfold guyNetLate, guyNet. destruct late, (Nat.even k); lia.
  - intros j. destruct late.
    + exists (tps + 2 * tps * (2 * j + 1) + 0). split; [lia|].
      unfold body. destruct (guy_walk_in tps Hpos true (2 * j + 1) 0) as (_ & ->); [lia|].
      unfold guyNetLate. replace (Nat.even (2 * j + 1)) with false; [lia|].
      symmetry. rewrite Nat.add_1_r, Nat.even_succ, <- Nat.negb_even, Nat.even_mul. done.
    + exists (tps + 2 * tps * (2 * j) + (2 * tps - 1)). split; [lia|].
      unfold body. destruct (guy_walk_in tps Hpos false (2 * j) (2 * tps - 1)) as (_ & ->); [lia|].
      unfold guyNet. rewrite Nat.even_mul. simpl. lia.
  - intros j. destruct late.
    + exists (tps + 2 * tps * (2 * j) + 0). split; [lia|].
      unfold body. destruct (guy_walk_in tps Hpos true (2 * j) 0) as (_ & ->); [lia|].
      unfold guyNetLate. rewrite Nat.even_mul. simpl. lia.
    + exists (tps + 2 * tps * (2 * j + 1) + (2 * tps - 1)). split; [lia|].
      unfold body. destruct (guy_walk_in tps Hpos false (2 * j + 1) (2 * tps - 1)) as (_ & ->); [lia|].
      unfold guyNet. replace (Nat.even (2 * j + 1)) with false; [lia|].
      symmetry. rewrite Nat.add_1_r, Nat.even_succ, <- Nat.negb_even, Nat.even_mul. done.
Qed.

Lemma guy_keeps_to_its_patrol_range_witness :
  (-200 * Z.of_nat 2
   ≤ netMove (Entities.mbody (guyRunIn 2 true 9 (Entities.makeGuyMob 2))) ≤ 0)%Z.
Proof.
  assert (0 < 2) as Hpos by lia.
  exact (proj2 (proj1 (guy_keeps_to_its_patrol_range 2 true Hpos) 9)).
Defined.

(** The first nine ticks of a guy at two ticks to the second, in the two
    orders: three moves on the way back when the timers run first, and so
    back on the spawn point a tick earlier than when they run last. *)
Lemma guy_nine_ticks :
  netMove (Entities.mbody (guyRunIn 2 false 9 (Entities.makeGuyMob 2))) = 0%Z
  ∧ netMove (Entities.mbody (guyRunIn 2 true 9 (Entities.makeGuyMob 2))) = (-100)%Z
  ∧ netMove (Entities.mbody (guyRunIn 2 true 10 (Entities.makeGuyMob 2))) = 0%Z.
Proof. vm_compute. done. Qed.

(* --------------------------------------------------------------------- *)
(** *** entities.ts: the idle timer is never cancelled *)
(* --------------------------------------------------------------------- *)




Section TimerFacts.
Import Engine Entities.
Variable tps : nat.







End TimerFacts.



(** The sample level with the inhale key held again right after a shot, a
    key-down every frame: on the frame that completes the second the player
    is Inhaling, the effect shown, and the animation is the idle one; the
    key-down of the next frame sets the inhaling animation again. *)
Lemma held_key_after_a_shot :
  let w1 := Entities.run 2
              [Entities.KeyRelease "z"; Entities.KeyDown "z"; Entities.Tick;
               Entities.KeyDown "z"; Entities.Tick] fullWorld in
  Entities.isInhaling (Entities.player w1) = true
  ∧ Entities.inhaleEffectOpacity w1 = 1%Z
  ∧ Entities.anim (Entities.player w1) = "kirbIdle"
  ∧ Entities.anim (Entities.player (Entities.step 2 w1 (Entities.KeyDown "z")))
    = "kirbInhaling".
Proof. vm_compute. done. Qed.
